(** * Binomial-tree pricer for American options

    A shallow embedding of [american_option_binomial] from
    [notebooks/binomial_tree.ipynb] and the properties of its
    Cox-Ross-Rubinstein backward induction.

    The pricer is written once, over an interface [Float64] of the
    scalar operations the Python code applies to its numbers, so that
    everything that depends only on the shape of the computation (array
    lengths, the dispatch on [option_type], which exceptions can be
    raised) is proved for every implementation of the interface.

    The numeric statements are proved for one instance, [float]: binary64
    with the IEEE special values (both infinities and NaN, produced by a
    division by zero, a square root of a negative number, or [inf - inf]
    and [inf * 0]) in which every finite value is an exact real.  Rounding
    and overflow are therefore abstracted, and zero is unsigned (it
    divides like [+0.0], which is the only zero the program divides by:
    [u - d] with [u = d]).  A statement about finite values of [float]
    is thus a statement in exact arithmetic: binary64 can differ from it
    by rounding, by an [exp] or a power that overflows, and by a
    volatility so small that [u] rounds to 1.  What is said of NaN, of
    the infinities, of signs and of exceptions does not depend on it. *)

From Stdlib Require Import Reals Lra Lia ZArith List String Bool.
Import ListNotations.

(** ** Python exceptions and the result of a call *)

Inductive exn : Type :=
| ZeroDivisionError   (* float division by zero, raised by Python's [/] *)
| IndexError          (* index out of bounds for an array *)
| ValueError.         (* operands could not be broadcast together *)

Inductive result (A : Type) : Type :=
| Ok (a : A)
| Raise (e : exn).

Arguments Ok {A} a.
Arguments Raise {A} e.

Definition bind {A B : Type} (c : result A) (k : A -> result B) : result B :=
  match c with
  | Ok a => k a
  | Raise e => Raise e
  end.

Notation "x <- c ;; k" := (bind c (fun x => k))
  (at level 61, c at next level, right associativity).
Notation "' pat <- c ;; k" := (bind c (fun x => match x with pat => k end))
  (at level 61, pat pattern, c at next level, right associativity).

(** [for i in idxs: st = body(st, i)], stopping at the first exception. *)
Fixpoint for_each {St : Type} (body : St -> Z -> result St)
         (idxs : list Z) (st : St) : result St :=
  match idxs with
  | [] => Ok st
  | i :: rest => st' <- body st i ;; for_each body rest st'
  end.

(** The states the loop goes through: the pair [(i, st)] for each
    iteration [i] that completed, [st] being the state it left. *)
Fixpoint loop_trace {St : Type} (body : St -> Z -> result St)
         (idxs : list Z) (st : St) : list (Z * St) :=
  match idxs with
  | [] => []
  | i :: rest =>
      match body st i with
      | Ok st' => (i, st') :: loop_trace body rest st'
      | Raise _ => []
      end
  end.

(** [range(n)] and [range(start, -1, -1)]. *)
Definition py_range (n : Z) : list Z :=
  map Z.of_nat (seq 0 (Z.to_nat n)).

Definition py_range_down (start : Z) : list Z :=
  map (fun k => (start - Z.of_nat k)%Z) (seq 0 (Z.to_nat (start + 1))).

(** [a[:k]]: a negative [k] counts from the end. *)
Definition slice_to {A : Type} (k : Z) (a : list A) : list A :=
  if (k <? 0)%Z then firstn (List.length a - Z.to_nat (- k)) a
  else firstn (Z.to_nat k) a.

(** [a[1:]]. *)
Definition slice_from1 {A : Type} (a : list A) : list A := skipn 1 a.

(** [a[0]] on an array. *)
Definition index0 {A : Type} (a : list A) : result A :=
  match a with
  | [] => Raise IndexError
  | x :: _ => Ok x
  end.

(** Elementwise application on two arrays of equal length. *)
Fixpoint zip_with {A B C : Type} (f : A -> B -> C) (a : list A) (b : list B)
  : list C :=
  match a, b with
  | x :: a', y :: b' => f x y :: zip_with f a' b'
  | _, _ => []
  end.

(** An elementwise operation on two one-dimensional arrays, with numpy's
    broadcasting: equal lengths pair up, a length-one operand is
    repeated, anything else is a [ValueError]. *)
Definition broadcast2 {A : Type} (f : A -> A -> A) (a b : list A)
  : result (list A) :=
  if (List.length a =? List.length b)%nat then Ok (zip_with f a b)
  else match a, b with
       | [x], _ => Ok (map (f x) b)
       | _, [y] => Ok (map (fun x => f x y) a)
       | _, _ => Raise ValueError
       end.

(** ** The scalar operations *)

Class Float64 (F : Type) : Type := {
  of_int : Z -> F;            (* an int operand converted to float *)
  fadd : F -> F -> F;
  fsub : F -> F -> F;
  fmul : F -> F -> F;
  fdiv : F -> F -> F;         (* numpy's [/]: never raises *)
  fneg : F -> F;
  fpow : F -> Z -> F;         (* [x ** n] for an int [n] *)
  np_exp : F -> F;
  np_sqrt : F -> F;
  np_max : F -> F -> F        (* [np.maximum] on two scalars *)
}.

(** ** The pricer *)

Section Pricer.

Context {F : Type} `{Float64 F}.

(** [T / N] when [T] and [N] are Python numbers, as the docstring types
    them ([T : float], [N : int]): Python's division raises on a zero
    divisor.  [truediv] below has numpy's division as well. *)
Definition py_truediv (x : F) (n : Z) : result F :=
  if (n =? 0)%Z then Raise ZeroDivisionError else Ok (fdiv x (of_int n)).

(** [u = np.exp(sigma * np.sqrt(dt))] *)
Definition up_factor (sigma dt : F) : F := np_exp (fmul sigma (np_sqrt dt)).

(** [d = 1 / u] *)
Definition down_factor (u : F) : F := fdiv (of_int 1) u.

(** [p = (np.exp((r - q) * dt) - d) / (u - d)] *)
Definition risk_neutral_p (r q dt u d : F) : F :=
  fdiv (fsub (np_exp (fmul (fsub r q) dt)) d) (fsub u d).

(** [discount = np.exp(-r * dt)] *)
Definition discount_factor (r dt : F) : F := np_exp (fmul (fneg r) dt).

(** [np.array([S * (u**j) * (d**(N-j)) for j in range(N+1)])] *)
Definition terminal_asset_prices (S u d : F) (N : Z) : list F :=
  map (fun j => fmul (fmul S (fpow u j)) (fpow d (N - j))) (py_range (N + 1)).

(** The payoff branch, used at maturity and for the exercise value:
    [np.maximum(asset_prices - K, 0)] if [option_type == 'call'],
    [np.maximum(K - asset_prices, 0)] otherwise. *)
Definition payoff (option_type : string) (K : F) (asset_prices : list F)
  : list F :=
  if String.eqb option_type "call"
  then map (fun s => np_max (fsub s K) (of_int 0)) asset_prices
  else map (fun s => np_max (fsub K s) (of_int 0)) asset_prices.

(** [(p * option_values[1:] + (1-p) * option_values[:-1]) * discount] *)
Definition continuation (p discount : F) (option_values : list F)
  : result (list F) :=
  s <- broadcast2 fadd
         (map (fmul p) (slice_from1 option_values))
         (map (fmul (fsub (of_int 1) p)) (slice_to (-1) option_values)) ;;
  Ok (map (fun x => fmul x discount) s).

(** The body of the backward loop, on the pair
    [(asset_prices, option_values)]. *)
Definition backward_step (K u p discount : F) (option_type : string)
           (st : list F * list F) (i : Z) : result (list F * list F) :=
  let '(asset_prices, option_values) := st in
  let asset_prices := map (fun s => fdiv s u) (slice_to (i + 1) asset_prices) in
  option_values <- continuation p discount option_values ;;
  let exercise := payoff option_type K asset_prices in
  option_values <- broadcast2 np_max option_values exercise ;;
  Ok (asset_prices, option_values).

(** The lattice before the loop. *)
Definition initial_lattice (S K u d : F) (N : Z) (option_type : string)
  : list F * list F :=
  let asset_prices := terminal_asset_prices S u d N in
  (asset_prices, payoff option_type K asset_prices).

Definition american_option_binomial
           (S K T r sigma q : F) (N : Z) (option_type : string) : result F :=
  dt <- py_truediv T N ;;
  let u := up_factor sigma dt in
  let d := down_factor u in
  let p := risk_neutral_p r q dt u d in
  let discount := discount_factor r dt in
  st <- for_each (backward_step K u p discount option_type)
                 (py_range_down (N - 1))
                 (initial_lattice S K u d N option_type) ;;
  index0 (snd st).

(** The risk-neutral probability a call works with. *)
Definition risk_neutral_probability (T r sigma q : F) (N : Z) : result F :=
  dt <- py_truediv T N ;;
  let u := up_factor sigma dt in
  Ok (risk_neutral_p r q dt u (down_factor u)).

(** The lattices the backward induction goes through, one per step. *)
Definition backward_trace
           (S K T r sigma q : F) (N : Z) (option_type : string)
  : list (Z * (list F * list F)) :=
  match py_truediv T N with
  | Raise _ => []
  | Ok dt =>
      let u := up_factor sigma dt in
      let d := down_factor u in
      let p := risk_neutral_p r q dt u d in
      let discount := discount_factor r dt in
      loop_trace (backward_step K u p discount option_type)
                 (py_range_down (N - 1))
                 (initial_lattice S K u d N option_type)
  end.

(** The same backward induction with the early-exercise comparison
    removed: each value is the discounted expectation of its two
    children and nothing else. *)
Definition backward_step_no_exercise (u p discount : F)
           (st : list F * list F) (i : Z) : result (list F * list F) :=
  let '(asset_prices, option_values) := st in
  let asset_prices := map (fun s => fdiv s u) (slice_to (i + 1) asset_prices) in
  option_values <- continuation p discount option_values ;;
  Ok (asset_prices, option_values).

(** [american_option_binomial] with that loop body. *)
Definition european_option_binomial
           (S K T r sigma q : F) (N : Z) (option_type : string) : result F :=
  dt <- py_truediv T N ;;
  let u := up_factor sigma dt in
  let d := down_factor u in
  let p := risk_neutral_p r q dt u d in
  let discount := discount_factor r dt in
  st <- for_each (backward_step_no_exercise u p discount)
                 (py_range_down (N - 1))
                 (initial_lattice S K u d N option_type) ;;
  index0 (snd st).

End Pricer.

(** ** The division [T / N]

    [american_option_binomial] above is the call with Python numbers for
    [T] and [N], as the docstring types them ([T : float], [N : int]):
    Python's [/] raises on a zero divisor.  When one of the two is a
    numpy scalar the same line is numpy's division, which raises nothing
    and returns an infinity or NaN.  Nothing else in the function
    depends on which of the two it is. *)

Inductive division : Type :=
| PythonDivision
| NumpyDivision.

Section PricerWith.

Context {F : Type} `{Float64 F}.

(** [T / N], by Python or by numpy. *)
Definition truediv (dv : division) (x : F) (n : Z) : result F :=
  match dv with
  | PythonDivision => py_truediv x n
  | NumpyDivision => Ok (fdiv x (of_int n))
  end.

(** [american_option_binomial], with either division. *)
Definition american_option_binomial_with (dv : division)
           (S K T r sigma q : F) (N : Z) (option_type : string) : result F :=
  dt <- truediv dv T N ;;
  let u := up_factor sigma dt in
  let d := down_factor u in
  let p := risk_neutral_p r q dt u d in
  let discount := discount_factor r dt in
  st <- for_each (backward_step K u p discount option_type)
                 (py_range_down (N - 1))
                 (initial_lattice S K u d N option_type) ;;
  index0 (snd st).

End PricerWith.

(** ** Binary64 with exact finite values *)

Inductive float : Type :=
| Fin (x : R)
| PInf
| NInf
| NaN.

Module Ideal.

Local Open Scope R_scope.

(** The infinity with the sign of [x]; NaN when [x] is zero. *)
Definition signed_inf (x : R) : float :=
  if Rlt_dec 0 x then PInf else if Rlt_dec x 0 then NInf else NaN.

Definition flip (a : float) : float :=
  match a with
  | Fin x => Fin (- x)
  | PInf => NInf
  | NInf => PInf
  | NaN => NaN
  end.

Definition add (a b : float) : float :=
  match a, b with
  | NaN, _ | _, NaN => NaN
  | PInf, NInf | NInf, PInf => NaN
  | PInf, _ | _, PInf => PInf
  | NInf, _ | _, NInf => NInf
  | Fin x, Fin y => Fin (x + y)
  end.

Definition sub (a b : float) : float := add a (flip b).

Definition mul (a b : float) : float :=
  match a, b with
  | NaN, _ | _, NaN => NaN
  | Fin x, Fin y => Fin (x * y)
  | Fin x, PInf | PInf, Fin x => signed_inf x
  | Fin x, NInf | NInf, Fin x => signed_inf (- x)
  | PInf, PInf | NInf, NInf => PInf
  | PInf, NInf | NInf, PInf => NInf
  end.

Definition div (a b : float) : float :=
  match a, b with
  | NaN, _ | _, NaN => NaN
  | Fin x, Fin y => if Req_dec_T y 0 then signed_inf x else Fin (x / y)
  | Fin _, (PInf | NInf) => Fin 0
  | (PInf | NInf), (PInf | NInf) => NaN
  | PInf, Fin y => if Rlt_dec y 0 then NInf else PInf
  | NInf, Fin y => if Rlt_dec y 0 then PInf else NInf
  end.

(** [x ** n] for [0 < n]. *)
Definition pow_pos (a : float) (n : Z) : float :=
  match a with
  | Fin x => Fin (x ^ Z.to_nat n)
  | PInf => PInf
  | NInf => if Z.even n then PInf else NInf
  | NaN => NaN
  end.

(** [x ** 0] is 1 for every [x], NaN included. *)
Definition pow (a : float) (n : Z) : float :=
  if (n =? 0)%Z then Fin 1
  else if (0 <? n)%Z then pow_pos a n
  else div (Fin 1) (pow_pos a (- n)).

Definition exp (a : float) : float :=
  match a with
  | Fin x => Fin (Rtrigo_def.exp x)
  | PInf => PInf
  | NInf => Fin 0
  | NaN => NaN
  end.

Definition sqrt (a : float) : float :=
  match a with
  | Fin x => if Rlt_dec x 0 then NaN else Fin (R_sqrt.sqrt x)
  | PInf => PInf
  | NInf => NaN
  | NaN => NaN
  end.

(** [np.maximum] propagates NaN. *)
Definition maximum (a b : float) : float :=
  match a, b with
  | NaN, _ | _, NaN => NaN
  | PInf, _ | _, PInf => PInf
  | NInf, y => y
  | x, NInf => x
  | Fin x, Fin y => Fin (Rmax x y)
  end.

End Ideal.

#[export] Instance float_Float64 : Float64 float := {
  of_int := fun z => Fin (IZR z);
  fadd := Ideal.add;
  fsub := Ideal.sub;
  fmul := Ideal.mul;
  fdiv := Ideal.div;
  fneg := Ideal.flip;
  fpow := Ideal.pow;
  np_exp := Ideal.exp;
  np_sqrt := Ideal.sqrt;
  np_max := Ideal.maximum
}.

(** ** The lattice in exact arithmetic

    What the pricer computes on finite values, as functions on reals.
    [american_fin] and [european_fin] below show that, on valid
    parameters, the pricer over [float] returns these values. *)

Module Exact.

Local Open Scope R_scope.

(** [u], [d], [p] and [discount]. *)
Definition up (sigma dt : R) : R := exp (sigma * sqrt dt).
Definition down (u : R) : R := 1 / u.
Definition prob (r q dt u d : R) : R := (exp ((r - q) * dt) - d) / (u - d).
Definition disc (r dt : R) : R := exp (- r * dt).

(** The asset prices at maturity. *)
Definition terminal (S u d : R) (N : Z) : list R :=
  map (fun j => S * u ^ Z.to_nat j * d ^ Z.to_nat (N - j)) (py_range (N + 1)).

(** The exercise value of one node. *)
Definition payoff1 (option_type : string) (K s : R) : R :=
  if String.eqb option_type "call" then Rmax (s - K) 0 else Rmax (K - s) 0.

Definition payoff (option_type : string) (K : R) (asset_prices : list R)
  : list R :=
  map (payoff1 option_type K) asset_prices.

(** The discounted expectation of the two children of each node. *)
Definition continuation (p discount : R) (option_values : list R) : list R :=
  map (fun x => x * discount)
      (zip_with Rplus
         (map (Rmult p) (slice_from1 option_values))
         (map (Rmult (1 - p)) (slice_to (-1) option_values))).

(** One backward step, with and without the early-exercise comparison. *)
Definition step (K u p discount : R) (option_type : string)
           (st : list R * list R) (i : Z) : list R * list R :=
  let asset_prices := map (fun s => s / u) (slice_to (i + 1) (fst st)) in
  (asset_prices,
   zip_with Rmax (continuation p discount (snd st))
            (payoff option_type K asset_prices)).

Definition step_no_exercise (u p discount : R)
           (st : list R * list R) (i : Z) : list R * list R :=
  (map (fun s => s / u) (slice_to (i + 1) (fst st)),
   continuation p discount (snd st)).

Definition initial (S K u d : R) (N : Z) (option_type : string)
  : list R * list R :=
  (terminal S u d N, payoff option_type K (terminal S u d N)).

(** The lattice after the whole backward induction. *)
Definition american (S K T r sigma q : R) (N : Z) (option_type : string)
  : list R * list R :=
  let dt := T / IZR N in
  let u := up sigma dt in
  let d := down u in
  fold_left (step K u (prob r q dt u d) (disc r dt) option_type)
            (py_range_down (N - 1)) (initial S K u d N option_type).

Definition european (S K T r sigma q : R) (N : Z) (option_type : string)
  : list R * list R :=
  let dt := T / IZR N in
  let u := up sigma dt in
  let d := down u in
  fold_left (step_no_exercise u (prob r q dt u d) (disc r dt))
            (py_range_down (N - 1)) (initial S K u d N option_type).

End Exact.

(** The step index and the two lengths of an entry of the trace. *)
Definition lattice_sizes {F : Type} (e : Z * (list F * list F)) : Z * nat * nat :=
  (fst e, List.length (fst (snd e)), List.length (snd (snd e))).

(** An infinity or NaN. *)
Definition not_finite (a : float) : Prop :=
  match a with Fin _ => False | _ => True end.


(** ** The asset price tree that is plotted *)

Section Plot.

Context {F : Type} `{Float64 F}.

(** [np.full_like(prices, j)]: an array of the shape of [prices], every
    element [j]. *)
Definition np_full_like (prices : list F) (j : Z) : list F :=
  map (fun _ => of_int j) prices.

(** [[S * (u**k) * (d**(j-k)) for k in range(j+1)]] *)
Definition tree_prices (S u d : F) (j : Z) : list F :=
  map (fun k => fmul (fmul S (fpow u k)) (fpow d (j - k))) (py_range (j + 1)).

(** [plot_binomial_tree], as the data it hands to [ax.scatter]: one pair
    [(x_coords, prices)] per call, in the order of the calls.  The
    figure, its labels and [plt.show()] are not modelled. *)
Definition plot_binomial_tree (S u d : F) (N : Z) : list (list F * list F) :=
  map (fun j =>
         let prices := tree_prices S u d j in
         let x_coords := np_full_like prices j in
         (x_coords, prices))
      (py_range (N + 1)).

End Plot.

(** * Properties *)

(** ** Ranges, slices and array shapes *)

Lemma py_range_down_neg (s : Z) : (s < 0)%Z -> py_range_down s = [].
Proof.
  intros Hs. unfold py_range_down.
  replace (Z.to_nat (s + 1)) with 0%nat by lia. reflexivity.
Qed.

Lemma py_range_down_S (m : nat) :
  py_range_down (Z.of_nat m) = Z.of_nat m :: py_range_down (Z.of_nat m - 1).
Proof.
  unfold py_range_down.
  replace (Z.to_nat (Z.of_nat m + 1)) with (S m) by lia.
  replace (Z.to_nat (Z.of_nat m - 1 + 1)) with m by lia.
  cbn [seq map]. f_equal; [lia|].
  rewrite <- seq_shift, map_map. apply map_ext. intros k. lia.
Qed.

Lemma py_range_length (n : Z) : List.length (py_range n) = Z.to_nat n.
Proof. unfold py_range. now rewrite length_map, length_seq. Qed.

Section Shape.
Context {F : Type} `{Float64 F}.

Lemma slice_to_length (k : nat) (a : list F) :
  List.length (slice_to (Z.of_nat k) a) = Nat.min k (List.length a).
Proof.
  unfold slice_to. destruct (Z.ltb_spec (Z.of_nat k) 0); [lia|].
  now rewrite Nat2Z.id, length_firstn.
Qed.

Lemma slice_to_m1_length (a : list F) :
  List.length (slice_to (-1) a) = (List.length a - 1)%nat.
Proof.
  unfold slice_to. cbn [Z.ltb Z.compare Z.opp]. rewrite length_firstn.
  change (Z.to_nat 1) with 1%nat. lia.
Qed.

Lemma slice_from1_length (a : list F) :
  List.length (slice_from1 a) = (List.length a - 1)%nat.
Proof. unfold slice_from1. now rewrite length_skipn. Qed.

Lemma broadcast2_same (f : F -> F -> F) (a b : list F) :
  List.length a = List.length b ->
  broadcast2 f a b = Ok (zip_with f a b).
Proof. intros E. unfold broadcast2. now rewrite E, Nat.eqb_refl. Qed.

Lemma zip_length (f : F -> F -> F) (a : list F) : forall b : list F,
  List.length a = List.length b ->
  List.length (zip_with f a b) = List.length a.
Proof.
  induction a as [|x a IH]; intros [|y b] E; try discriminate; cbn in *.
  - reflexivity.
  - now rewrite IH by lia.
Qed.

Lemma payoff_length (ot : string) (K : F) (a : list F) :
  List.length (payoff ot K a) = List.length a.
Proof. unfold payoff. destruct (String.eqb ot "call"); apply length_map. Qed.

Lemma continuation_ok (p disc : F) (ov : list F) :
  exists l, continuation p disc ov = Ok l
            /\ List.length l = (List.length ov - 1)%nat.
Proof.
  unfold continuation. rewrite broadcast2_same.
  - cbn [bind]. eexists. split; [reflexivity|].
    rewrite length_map, zip_length;
      rewrite !length_map, ?slice_from1_length, ?slice_to_m1_length; reflexivity.
  - now rewrite !length_map, slice_from1_length, slice_to_m1_length.
Qed.

Lemma backward_step_ok (K u p disc : F) (ot : string) (m : nat) ap ov :
  List.length ap = S (S m) -> List.length ov = S (S m) ->
  exists ap' ov',
    backward_step K u p disc ot (ap, ov) (Z.of_nat m) = Ok (ap', ov')
    /\ List.length ap' = S m /\ List.length ov' = S m.
Proof.
  intros Ha Ho. unfold backward_step.
  destruct (continuation_ok p disc ov) as (c & -> & Hc). cbn [bind].
  assert (Hap : List.length (map (fun s => fdiv s u) (slice_to (Z.of_nat m + 1) ap)) = S m).
  { rewrite length_map. replace (Z.of_nat m + 1)%Z with (Z.of_nat (S m)) by lia.
    rewrite slice_to_length. lia. }
  rewrite broadcast2_same by (rewrite payoff_length, Hap; lia).
  cbn [bind]. do 2 eexists. split; [reflexivity|]. split; [exact Hap|].
  rewrite zip_length by (rewrite payoff_length, Hap; lia). lia.
Qed.

End Shape.

(** ** The shape of the backward loop

    Step [i] takes two arrays of [i + 2] elements to two arrays of
    [i + 1] elements and raises nothing. *)

Section Loop.
Context {F : Type} `{Float64 F}.
Variables (K u p disc : F) (ot : string).

Lemma for_each_shape (m : nat) : forall ap ov,
  List.length ap = S m -> List.length ov = S m ->
  exists ap' v,
    for_each (backward_step K u p disc ot)
             (py_range_down (Z.of_nat m - 1)) (ap, ov) = Ok (ap', [v]).
Proof.
  induction m as [|m IH]; intros ap ov Ha Ho.
  - rewrite py_range_down_neg by lia. cbn [for_each].
    destruct ov as [|v [|? ?]]; try discriminate. now exists ap, v.
  - replace (Z.of_nat (S m) - 1)%Z with (Z.of_nat m) by lia.
    rewrite py_range_down_S. cbn [for_each].
    destruct (backward_step_ok K u p disc ot m ap ov Ha Ho)
      as (ap1 & ov1 & -> & Ha1 & Ho1).
    cbn [bind]. now apply IH.
Qed.

Lemma loop_trace_sizes (m : nat) : forall ap ov,
  List.length ap = S m -> List.length ov = S m ->
  map lattice_sizes
      (loop_trace (backward_step K u p disc ot)
                  (py_range_down (Z.of_nat m - 1)) (ap, ov))
  = map (fun i => (i, Z.to_nat (i + 1), Z.to_nat (i + 1)))
        (py_range_down (Z.of_nat m - 1)).
Proof.
  induction m as [|m IH]; intros ap ov Ha Ho.
  - rewrite py_range_down_neg by lia. reflexivity.
  - replace (Z.of_nat (S m) - 1)%Z with (Z.of_nat m) by lia.
    rewrite py_range_down_S. cbn [loop_trace].
    destruct (backward_step_ok K u p disc ot m ap ov Ha Ho)
      as (ap1 & ov1 & -> & Ha1 & Ho1).
    cbn [map]. rewrite (IH ap1 ov1 Ha1 Ho1). f_equal.
    unfold lattice_sizes. cbn [fst snd]. rewrite Ha1, Ho1.
    repeat f_equal; lia.
Qed.

Lemma loop_trace_end (m : nat) : forall ap ov,
  List.length ap = S (S m) -> List.length ov = S (S m) ->
  exists tr ap' v,
    loop_trace (backward_step K u p disc ot)
               (py_range_down (Z.of_nat m)) (ap, ov)
    = tr ++ [(0%Z, (ap', [v]))]
    /\ for_each (backward_step K u p disc ot)
                (py_range_down (Z.of_nat m)) (ap, ov) = Ok (ap', [v]).
Proof.
  induction m as [|m IH]; intros ap ov Ha Ho.
  - rewrite (py_range_down_S 0), py_range_down_neg by lia.
    cbn [loop_trace for_each].
    destruct (backward_step_ok K u p disc ot 0 ap ov Ha Ho)
      as (ap1 & ov1 & -> & Ha1 & Ho1).
    destruct ov1 as [|v [|? ?]]; try discriminate.
    exists [], ap1, v. split; reflexivity.
  - rewrite py_range_down_S.
    replace (Z.of_nat (S m) - 1)%Z with (Z.of_nat m) by lia.
    cbn [loop_trace for_each].
    destruct (backward_step_ok K u p disc ot (S m) ap ov Ha Ho)
      as (ap1 & ov1 & -> & Ha1 & Ho1).
    destruct (IH ap1 ov1 Ha1 Ho1) as (tr & ap' & v & Etr & Efe).
    exists ((Z.of_nat (S m), (ap1, ov1)) :: tr), ap', v.
    cbn [bind]. now rewrite Etr, Efe.
Qed.

End Loop.

(** ** Which calls return, which raise *)

Section Calls.
Context {F : Type} `{Float64 F}.

Lemma terminal_asset_prices_length (S u d : F) (N : Z) :
  List.length (terminal_asset_prices S u d N) = Z.to_nat (N + 1).
Proof. unfold terminal_asset_prices. now rewrite length_map, py_range_length. Qed.

Lemma initial_lattice_sizes (S K u d : F) (N : Z) (ot : string) :
  List.length (fst (initial_lattice S K u d N ot)) = Z.to_nat (N + 1)
  /\ List.length (snd (initial_lattice S K u d N ot)) = Z.to_nat (N + 1).
Proof.
  unfold initial_lattice. cbn [fst snd].
  now rewrite payoff_length, terminal_asset_prices_length.
Qed.

(** With at least one step the call returns a value. *)
Lemma american_returns (S K T r sigma q : F) (N : Z) (ot : string) :
  (1 <= N)%Z -> exists v, american_option_binomial S K T r sigma q N ot = Ok v.
Proof.
  intros HN. unfold american_option_binomial, py_truediv.
  destruct (Z.eqb_spec N 0); [lia|]. cbn [bind].
  set (dt := fdiv T (of_int N)).
  destruct (initial_lattice_sizes S K (up_factor sigma dt)
              (down_factor (up_factor sigma dt)) N ot) as [Ha Ho].
  destruct (initial_lattice _ _ _ _ _ _) as [ap ov]. cbn [fst snd] in Ha, Ho.
  destruct (for_each_shape K (up_factor sigma dt)
              (risk_neutral_p r q dt (up_factor sigma dt)
                              (down_factor (up_factor sigma dt)))
              (discount_factor r dt) ot (Z.to_nat N) ap ov) as (ap' & v & E).
  1,2: lia.
  replace (Z.of_nat (Z.to_nat N) - 1)%Z with (N - 1)%Z in E by lia.
  rewrite E. cbn [bind snd index0]. now exists v.
Qed.

Lemma american_zero_steps (S K T r sigma q : F) (ot : string) :
  american_option_binomial S K T r sigma q 0 ot = Raise ZeroDivisionError.
Proof. reflexivity. Qed.

Lemma american_negative_steps (S K T r sigma q : F) (N : Z) (ot : string) :
  (N < 0)%Z -> american_option_binomial S K T r sigma q N ot = Raise IndexError.
Proof.
  intros HN. unfold american_option_binomial, py_truediv.
  destruct (Z.eqb_spec N 0); [lia|]. cbn [bind].
  rewrite py_range_down_neg by lia. cbn [for_each bind].
  unfold initial_lattice, terminal_asset_prices, py_range.
  replace (Z.to_nat (N + 1)) with 0%nat by lia. cbn [seq map snd].
  unfold payoff. destruct (String.eqb ot "call"); reflexivity.
Qed.

End Calls.

(** ** From [float] to exact arithmetic

    On finite values, and away from a zero divisor, each operation of
    the pricer is the operation on reals. *)

Section Refinement.

Local Open Scope R_scope.

Lemma div_fin (x y : R) : y <> 0 -> fdiv (Fin x) (Fin y) = Fin (x / y).
Proof. intros Hy. cbn. destruct (Req_dec_T y 0); [contradiction|reflexivity]. Qed.

Lemma sqrt_fin (x : R) : 0 <= x -> np_sqrt (Fin x) = Fin (sqrt x).
Proof. intros Hx. cbn. destruct (Rlt_dec x 0); [lra|reflexivity]. Qed.

Lemma pow_fin (x : R) (n : Z) : (0 <= n)%Z -> fpow (Fin x) n = Fin (x ^ Z.to_nat n).
Proof.
  intros Hn. cbn. unfold Ideal.pow.
  destruct (Z.eqb_spec n 0) as [->|Hn0]; [reflexivity|].
  destruct (Z.ltb_spec 0 n); [reflexivity|lia].
Qed.

Lemma truediv_fin (T : R) (N : Z) :
  (1 <= N)%Z -> py_truediv (Fin T) N = Ok (Fin (T / IZR N)).
Proof.
  intros HN. unfold py_truediv. destruct (Z.eqb_spec N 0); [lia|].
  cbn [of_int float_Float64]. rewrite div_fin; [reflexivity|].
  apply not_0_IZR. lia.
Qed.

Lemma dt_pos (T : R) (N : Z) : 0 < T -> (1 <= N)%Z -> 0 < T / IZR N.
Proof.
  intros HT HN. apply Rdiv_lt_0_compat; [assumption|]. apply IZR_lt. lia.
Qed.

Lemma up_factor_fin (sigma dt : R) :
  0 <= dt -> up_factor (Fin sigma) (Fin dt) = Fin (Exact.up sigma dt).
Proof. intros Hdt. unfold up_factor. now rewrite sqrt_fin. Qed.

Lemma up_gt_1 (sigma dt : R) : 0 < sigma -> 0 < dt -> 1 < Exact.up sigma dt.
Proof.
  intros Hs Hdt. unfold Exact.up. rewrite <- exp_0. apply exp_increasing.
  apply Rmult_lt_0_compat; [assumption|]. now apply sqrt_lt_R0.
Qed.

Lemma down_lt_1 (u : R) : 1 < u -> 0 < Exact.down u < 1.
Proof.
  intros Hu. unfold Exact.down. split.
  - apply Rdiv_lt_0_compat; lra.
  - apply Rmult_lt_reg_r with u; [lra|]. field_simplify; lra.
Qed.

Lemma down_factor_fin (u : R) :
  u <> 0 -> down_factor (Fin u) = Fin (Exact.down u).
Proof. intros Hu. unfold down_factor. cbn [of_int float_Float64]. now rewrite div_fin. Qed.

Lemma risk_neutral_p_fin (r q dt u d : R) :
  u - d <> 0 ->
  risk_neutral_p (Fin r) (Fin q) (Fin dt) (Fin u) (Fin d)
  = Fin (Exact.prob r q dt u d).
Proof.
  intros Hud. unfold risk_neutral_p.
  change (fsub (Fin u) (Fin d)) with (Fin (u - d)).
  change (fsub (np_exp (fmul (fsub (Fin r) (Fin q)) (Fin dt))) (Fin d))
    with (Fin (exp ((r - q) * dt) - d)).
  now rewrite div_fin.
Qed.

Lemma discount_factor_fin (r dt : R) :
  discount_factor (Fin r) (Fin dt) = Fin (Exact.disc r dt).
Proof. reflexivity. Qed.

Lemma terminal_fin (S u d : R) (N : Z) :
  terminal_asset_prices (Fin S) (Fin u) (Fin d) N
  = map Fin (Exact.terminal S u d N).
Proof.
  unfold terminal_asset_prices, Exact.terminal. rewrite map_map.
  apply map_ext_in. intros j Hj. unfold py_range in Hj.
  apply in_map_iff in Hj. destruct Hj as (k & <- & Hk). apply in_seq in Hk.
  rewrite !pow_fin by lia. reflexivity.
Qed.

Lemma payoff_fin (ot : string) (K : R) (l : list R) :
  payoff ot (Fin K) (map Fin l) = map Fin (Exact.payoff ot K l).
Proof.
  unfold payoff, Exact.payoff, Exact.payoff1.
  destruct (String.eqb ot "call"); rewrite !map_map; reflexivity.
Qed.

Lemma slice_to_map {A B : Type} (f : A -> B) (k : Z) (l : list A) :
  slice_to k (map f l) = map f (slice_to k l).
Proof.
  unfold slice_to. rewrite length_map.
  destruct (k <? 0)%Z; now rewrite firstn_map.
Qed.

Lemma slice_from1_map {A B : Type} (f : A -> B) (l : list A) :
  slice_from1 (map f l) = map f (slice_from1 l).
Proof. unfold slice_from1. now rewrite skipn_map. Qed.

Lemma zip_with_fin (f : float -> float -> float) (g : R -> R -> R) :
  (forall x y, f (Fin x) (Fin y) = Fin (g x y)) ->
  forall a b, zip_with f (map Fin a) (map Fin b) = map Fin (zip_with g a b).
Proof.
  intros Hfg. induction a as [|x a IH]; intros [|y b]; cbn; try reflexivity.
  now rewrite Hfg, IH.
Qed.

Lemma zip_with_length {A B C : Type} (f : A -> B -> C) (a : list A) :
  forall b, List.length (zip_with f a b) = Nat.min (List.length a) (List.length b).
Proof. induction a as [|x a IH]; intros [|y b]; cbn; auto. Qed.

Lemma continuation_fin (p disc : R) (ov : list R) :
  continuation (Fin p) (Fin disc) (map Fin ov)
  = Ok (map Fin (Exact.continuation p disc ov)).
Proof.
  unfold continuation, Exact.continuation.
  rewrite broadcast2_same
    by now rewrite !length_map, slice_from1_length, slice_to_m1_length.
  cbn [bind]. f_equal.
  rewrite slice_from1_map, slice_to_map, !map_map.
  change (fun x => fmul (Fin p) (Fin x)) with (fun x => Fin (p * x)).
  change (fun x => fmul (fsub (of_int 1) (Fin p)) (Fin x))
    with (fun x => Fin ((1 - p) * x)).
  rewrite <- (map_map (Rmult p) Fin), <- (map_map (Rmult (1 - p)) Fin).
  rewrite (zip_with_fin fadd Rplus) by reflexivity.
  rewrite !map_map. reflexivity.
Qed.

Lemma exact_continuation_length (p disc : R) (ov : list R) :
  List.length (Exact.continuation p disc ov) = (List.length ov - 1)%nat.
Proof.
  unfold Exact.continuation.
  rewrite length_map, zip_with_length, !length_map.
  unfold slice_from1, slice_to. cbn [Z.ltb Z.compare Z.opp].
  rewrite length_skipn, length_firstn. change (Z.to_nat 1) with 1%nat. lia.
Qed.

Lemma exact_payoff_length (ot : string) (K : R) (l : list R) :
  List.length (Exact.payoff ot K l) = List.length l.
Proof. apply length_map. Qed.

Lemma backward_step_fin (K u p disc : R) (ot : string) (m : nat) ap ov :
  u <> 0 -> List.length ap = S (S m) -> List.length ov = S (S m) ->
  backward_step (Fin K) (Fin u) (Fin p) (Fin disc) ot
                (map Fin ap, map Fin ov) (Z.of_nat m)
  = Ok (map Fin (fst (Exact.step K u p disc ot (ap, ov) (Z.of_nat m))),
        map Fin (snd (Exact.step K u p disc ot (ap, ov) (Z.of_nat m)))).
Proof.
  intros Hu Ha Ho. unfold backward_step, Exact.step. cbn [fst snd].
  rewrite continuation_fin. cbn [bind].
  rewrite slice_to_map, map_map.
  rewrite (map_ext (fun x => fdiv (Fin x) (Fin u)) (fun x => Fin (x / u)))
    by (intros x; now apply div_fin).
  rewrite <- (map_map (fun s => s / u) Fin), payoff_fin.
  rewrite broadcast2_same.
  - cbn [bind]. rewrite (zip_with_fin np_max Rmax) by reflexivity. reflexivity.
  - rewrite !length_map, exact_continuation_length, exact_payoff_length, length_map.
    unfold slice_to. destruct (Z.ltb_spec (Z.of_nat m + 1) 0); [lia|].
    rewrite length_firstn. lia.
Qed.

End Refinement.

Section ExactLoop.

Local Open Scope R_scope.
Variables (K u p disc : R) (ot : string).

Lemma exact_step_lengths (m : nat) (ap ov : list R) :
  List.length ap = S (S m) -> List.length ov = S (S m) ->
  List.length (fst (Exact.step K u p disc ot (ap, ov) (Z.of_nat m))) = S m
  /\ List.length (snd (Exact.step K u p disc ot (ap, ov) (Z.of_nat m))) = S m.
Proof.
  intros Ha Ho. unfold Exact.step. cbn [fst snd].
  assert (E : List.length (map (fun s => s / u) (slice_to (Z.of_nat m + 1) ap)) = S m).
  { rewrite length_map. unfold slice_to.
    destruct (Z.ltb_spec (Z.of_nat m + 1) 0); [lia|]. rewrite length_firstn. lia. }
  split; [exact E|].
  rewrite zip_with_length, exact_continuation_length, exact_payoff_length, E. lia.
Qed.

Lemma exact_step_no_exercise_lengths (m : nat) (ap ov : list R) :
  List.length ap = S (S m) -> List.length ov = S (S m) ->
  List.length (fst (Exact.step_no_exercise u p disc (ap, ov) (Z.of_nat m))) = S m
  /\ List.length (snd (Exact.step_no_exercise u p disc (ap, ov) (Z.of_nat m))) = S m.
Proof.
  intros Ha Ho. unfold Exact.step_no_exercise. cbn [fst snd]. split.
  - rewrite length_map. unfold slice_to.
    destruct (Z.ltb_spec (Z.of_nat m + 1) 0); [lia|]. rewrite length_firstn. lia.
  - rewrite exact_continuation_length. lia.
Qed.

Lemma backward_step_no_exercise_fin (m : nat) (ap ov : list R) :
  u <> 0 ->
  backward_step_no_exercise (Fin u) (Fin p) (Fin disc)
                            (map Fin ap, map Fin ov) (Z.of_nat m)
  = Ok (map Fin (fst (Exact.step_no_exercise u p disc (ap, ov) (Z.of_nat m))),
        map Fin (snd (Exact.step_no_exercise u p disc (ap, ov) (Z.of_nat m)))).
Proof.
  intros Hu. unfold backward_step_no_exercise, Exact.step_no_exercise.
  cbn [fst snd]. rewrite continuation_fin. cbn [bind].
  rewrite slice_to_map, map_map.
  rewrite (map_ext (fun x => fdiv (Fin x) (Fin u)) (fun x => Fin (x / u)))
    by (intros x; now apply div_fin).
  now rewrite <- (map_map (fun s => s / u) Fin).
Qed.

Lemma for_each_fin (m : nat) : forall ap ov,
  u <> 0 -> List.length ap = S m -> List.length ov = S m ->
  for_each (backward_step (Fin K) (Fin u) (Fin p) (Fin disc) ot)
           (py_range_down (Z.of_nat m - 1)) (map Fin ap, map Fin ov)
  = let st := fold_left (Exact.step K u p disc ot)
                        (py_range_down (Z.of_nat m - 1)) (ap, ov) in
    Ok (map Fin (fst st), map Fin (snd st)).
Proof.
  induction m as [|m IH]; intros ap ov Hu Ha Ho.
  - rewrite py_range_down_neg by lia. reflexivity.
  - replace (Z.of_nat (S m) - 1)%Z with (Z.of_nat m) by lia.
    rewrite py_range_down_S. cbn [for_each fold_left].
    rewrite backward_step_fin by assumption. cbn [bind].
    destruct (exact_step_lengths m ap ov Ha Ho) as [Ha1 Ho1].
    destruct (Exact.step K u p disc ot (ap, ov) (Z.of_nat m)) as [ap1 ov1] eqn:E.
    cbn [fst snd] in *. now apply IH.
Qed.

Lemma for_each_no_exercise_fin (m : nat) : forall ap ov,
  u <> 0 -> List.length ap = S m -> List.length ov = S m ->
  for_each (backward_step_no_exercise (Fin u) (Fin p) (Fin disc))
           (py_range_down (Z.of_nat m - 1)) (map Fin ap, map Fin ov)
  = let st := fold_left (Exact.step_no_exercise u p disc)
                        (py_range_down (Z.of_nat m - 1)) (ap, ov) in
    Ok (map Fin (fst st), map Fin (snd st)).
Proof.
  induction m as [|m IH]; intros ap ov Hu Ha Ho.
  - rewrite py_range_down_neg by lia. reflexivity.
  - replace (Z.of_nat (S m) - 1)%Z with (Z.of_nat m) by lia.
    rewrite py_range_down_S. cbn [for_each fold_left].
    rewrite backward_step_no_exercise_fin by assumption. cbn [bind].
    destruct (exact_step_no_exercise_lengths m ap ov Ha Ho) as [Ha1 Ho1].
    destruct (Exact.step_no_exercise u p disc (ap, ov) (Z.of_nat m))
      as [ap1 ov1] eqn:E.
    cbn [fst snd] in *. now apply IH.
Qed.

(** After the loop one node is left. *)
Lemma exact_fold_lengths (m : nat) : forall ap ov,
  List.length ap = S m -> List.length ov = S m ->
  let st := fold_left (Exact.step K u p disc ot)
                      (py_range_down (Z.of_nat m - 1)) (ap, ov) in
  List.length (fst st) = 1%nat /\ List.length (snd st) = 1%nat.
Proof.
  induction m as [|m IH]; intros ap ov Ha Ho.
  - rewrite py_range_down_neg by lia. cbn. auto.
  - replace (Z.of_nat (S m) - 1)%Z with (Z.of_nat m) by lia.
    rewrite py_range_down_S. cbn [fold_left].
    destruct (exact_step_lengths m ap ov Ha Ho) as [Ha1 Ho1].
    destruct (Exact.step K u p disc ot (ap, ov) (Z.of_nat m)) as [ap1 ov1].
    cbn [fst snd] in *. now apply IH.
Qed.

Lemma exact_fold_no_exercise_lengths (m : nat) : forall ap ov,
  List.length ap = S m -> List.length ov = S m ->
  let st := fold_left (Exact.step_no_exercise u p disc)
                      (py_range_down (Z.of_nat m - 1)) (ap, ov) in
  List.length (fst st) = 1%nat /\ List.length (snd st) = 1%nat.
Proof.
  induction m as [|m IH]; intros ap ov Ha Ho.
  - rewrite py_range_down_neg by lia. cbn. auto.
  - replace (Z.of_nat (S m) - 1)%Z with (Z.of_nat m) by lia.
    rewrite py_range_down_S. cbn [fold_left].
    destruct (exact_step_no_exercise_lengths m ap ov Ha Ho) as [Ha1 Ho1].
    destruct (Exact.step_no_exercise u p disc (ap, ov) (Z.of_nat m)) as [ap1 ov1].
    cbn [fst snd] in *. now apply IH.
Qed.

End ExactLoop.

Section ExactCalls.

Local Open Scope R_scope.

Lemma exact_terminal_length (S u d : R) (N : Z) :
  List.length (Exact.terminal S u d N) = Z.to_nat (N + 1).
Proof. unfold Exact.terminal. now rewrite length_map, py_range_length. Qed.

Lemma initial_lattice_fin (S K u d : R) (N : Z) (ot : string) :
  initial_lattice (Fin S) (Fin K) (Fin u) (Fin d) N ot
  = (map Fin (fst (Exact.initial S K u d N ot)),
     map Fin (snd (Exact.initial S K u d N ot))).
Proof.
  unfold initial_lattice, Exact.initial. cbn [fst snd].
  now rewrite terminal_fin, payoff_fin.
Qed.

(** On valid parameters the pricer returns the value of the exact
    lattice. *)
Lemma american_fin (S K T r sigma q : R) (N : Z) (ot : string) :
  0 < T -> (1 <= N)%Z -> 0 < sigma ->
  exists a v,
    Exact.american S K T r sigma q N ot = ([a], [v])
    /\ american_option_binomial
         (Fin S) (Fin K) (Fin T) (Fin r) (Fin sigma) (Fin q) N ot = Ok (Fin v).
Proof.
  intros HT HN Hs.
  pose proof (dt_pos T N HT HN) as Hdt.
  pose proof (up_gt_1 sigma (T / IZR N) Hs Hdt) as Hu.
  pose proof (down_lt_1 _ Hu) as Hd.
  unfold american_option_binomial, Exact.american.
  rewrite truediv_fin by assumption. cbn [bind].
  rewrite up_factor_fin by lra.
  rewrite down_factor_fin by lra.
  rewrite risk_neutral_p_fin by lra.
  rewrite discount_factor_fin, initial_lattice_fin.
  set (u := Exact.up sigma (T / IZR N)) in *.
  set (d := Exact.down u) in *.
  set (p := Exact.prob r q (T / IZR N) u d).
  set (dc := Exact.disc r (T / IZR N)).
  assert (Hlen : List.length (fst (Exact.initial S K u d N ot)) = Datatypes.S (Z.to_nat N)
                 /\ List.length (snd (Exact.initial S K u d N ot)) = Datatypes.S (Z.to_nat N)).
  { unfold Exact.initial. cbn [fst snd].
    rewrite exact_payoff_length, exact_terminal_length. lia. }
  destruct Hlen as [Ha Ho].
  replace (N - 1)%Z with (Z.of_nat (Z.to_nat N) - 1)%Z by lia.
  rewrite (for_each_fin K u p dc ot (Z.to_nat N)) by (try assumption; lra).
  cbn zeta. cbn [bind snd].
  destruct (Exact.initial S K u d N ot) as [ap ov]. cbn [fst snd] in Ha, Ho.
  destruct (exact_fold_lengths K u p dc ot (Z.to_nat N) ap ov Ha Ho) as [L1 L2].
  destruct (fold_left _ _ _) as [apf ovf]. cbn [fst snd] in *.
  destruct apf as [|a [|? ?]]; try discriminate.
  destruct ovf as [|v [|? ?]]; try discriminate.
  exists a, v. split; reflexivity.
Qed.

Lemma european_fin (S K T r sigma q : R) (N : Z) (ot : string) :
  0 < T -> (1 <= N)%Z -> 0 < sigma ->
  exists a v,
    Exact.european S K T r sigma q N ot = ([a], [v])
    /\ european_option_binomial
         (Fin S) (Fin K) (Fin T) (Fin r) (Fin sigma) (Fin q) N ot = Ok (Fin v).
Proof.
  intros HT HN Hs.
  pose proof (dt_pos T N HT HN) as Hdt.
  pose proof (up_gt_1 sigma (T / IZR N) Hs Hdt) as Hu.
  pose proof (down_lt_1 _ Hu) as Hd.
  unfold european_option_binomial, Exact.european.
  rewrite truediv_fin by assumption. cbn [bind].
  rewrite up_factor_fin by lra.
  rewrite down_factor_fin by lra.
  rewrite risk_neutral_p_fin by lra.
  rewrite discount_factor_fin, initial_lattice_fin.
  set (u := Exact.up sigma (T / IZR N)) in *.
  set (d := Exact.down u) in *.
  set (p := Exact.prob r q (T / IZR N) u d).
  set (dc := Exact.disc r (T / IZR N)).
  assert (Hlen : List.length (fst (Exact.initial S K u d N ot)) = Datatypes.S (Z.to_nat N)
                 /\ List.length (snd (Exact.initial S K u d N ot)) = Datatypes.S (Z.to_nat N)).
  { unfold Exact.initial. cbn [fst snd].
    rewrite exact_payoff_length, exact_terminal_length. lia. }
  destruct Hlen as [Ha Ho].
  replace (N - 1)%Z with (Z.of_nat (Z.to_nat N) - 1)%Z by lia.
  rewrite (for_each_no_exercise_fin u p dc (Z.to_nat N)) by (try assumption; lra).
  cbn zeta. cbn [bind snd].
  destruct (Exact.initial S K u d N ot) as [ap ov]. cbn [fst snd] in Ha, Ho.
  destruct (exact_fold_no_exercise_lengths u p dc (Z.to_nat N) ap ov Ha Ho) as [L1 L2].
  destruct (fold_left _ _ _) as [apf ovf]. cbn [fst snd] in *.
  destruct apf as [|a [|? ?]]; try discriminate.
  destruct ovf as [|v [|? ?]]; try discriminate.
  exists a, v. split; reflexivity.
Qed.

End ExactCalls.

(** ** Values with and without early exercise *)

Section ExactValues.

Local Open Scope R_scope.

Lemma exact_continuation_cons (p disc x y : R) (l : list R) :
  Exact.continuation p disc (x :: y :: l)
  = (p * y + (1 - p) * x) * disc :: Exact.continuation p disc (y :: l).
Proof.
  unfold Exact.continuation, slice_from1, slice_to.
  cbn [Z.ltb Z.compare Z.opp]. change (Z.to_nat 1) with 1%nat.
  cbn [List.length skipn]. rewrite !Nat.sub_succ, !Nat.sub_0_r.
  cbn [firstn map zip_with]. reflexivity.
Qed.

Lemma exact_continuation_mono (p disc : R) :
  0 <= p <= 1 -> 0 <= disc ->
  forall e a, Forall2 Rle e a ->
              Forall2 Rle (Exact.continuation p disc e) (Exact.continuation p disc a).
Proof.
  intros Hp Hd e a Hea. induction Hea as [|x x' e a Hx Hea IH].
  - constructor.
  - destruct Hea as [|y y' e a Hy Hea].
    + constructor.
    + rewrite !exact_continuation_cons. constructor; [|exact IH].
      apply Rmult_le_compat_r; [assumption|].
      apply Rplus_le_compat; apply Rmult_le_compat_l; lra.
Qed.


Lemma Forall2_Rle_refl (l : list R) : Forall2 Rle l l.
Proof. induction l; constructor; [lra|assumption]. Qed.


End ExactValues.

(** ** The asset prices a step works with *)

Section TracePrices.
Context {F : Type} `{Float64 F}.
Variables (K u p disc : F) (ot : string).

Lemma backward_step_asset_prices (ap ov ap' ov' : list F) (i : Z) :
  backward_step K u p disc ot (ap, ov) i = Ok (ap', ov') ->
  ap' = map (fun s => fdiv s u) (slice_to (i + 1) ap).
Proof.
  unfold backward_step.
  destruct (continuation p disc ov) as [c|e]; [|discriminate]. cbn [bind].
  destruct (broadcast2 np_max c _) as [o|e]; [|discriminate]. cbn [bind].
  now intros [= <- _].
Qed.

Lemma map_iter_shift (f : F -> F) (k : nat) (l : list F) :
  map (Nat.iter k f) (map f l) = map (Nat.iter (S k) f) l.
Proof.
  rewrite map_map. apply map_ext. intros x.
  now rewrite Nat.iter_succ_r.
Qed.

(** The asset prices at step [i] are the first [i + 1] terminal prices,
    each divided by [u] once per step taken. *)
Lemma loop_trace_asset_prices (m : nat) : forall ap ov,
  List.length ap = S m -> List.length ov = S m ->
  forall i ap' ov',
    In (i, (ap', ov'))
       (loop_trace (backward_step K u p disc ot)
                   (py_range_down (Z.of_nat m - 1)) (ap, ov)) ->
    (0 <= i < Z.of_nat m)%Z
    /\ ap' = map (Nat.iter (m - Z.to_nat i) (fun s => fdiv s u))
                 (firstn (Z.to_nat i + 1) ap).
Proof.
  induction m as [|m IH]; intros ap ov Ha Ho i ap' ov' Hin.
  - rewrite py_range_down_neg in Hin by lia. contradiction.
  - replace (Z.of_nat (S m) - 1)%Z with (Z.of_nat m) in Hin by lia.
    rewrite py_range_down_S in Hin. cbn [loop_trace] in Hin.
    destruct (backward_step_ok K u p disc ot m ap ov Ha Ho)
      as (ap1 & ov1 & E & Ha1 & Ho1).
    rewrite E in Hin. apply backward_step_asset_prices in E.
    replace (Z.of_nat m + 1)%Z with (Z.of_nat (S m)) in E by lia.
    unfold slice_to in E. destruct (Z.ltb_spec (Z.of_nat (S m)) 0); [lia|].
    rewrite Nat2Z.id in E.
    destruct Hin as [[= <- <- <-]|Hin].
    + split; [lia|]. rewrite Nat2Z.id.
      replace (S m - m)%nat with 1%nat by lia.
      replace (m + 1)%nat with (S m) by lia. exact E.
    + destruct (IH ap1 ov1 Ha1 Ho1 i ap' ov' Hin) as [Hi ->].
      split; [lia|].
      rewrite E, firstn_map, firstn_firstn, map_iter_shift.
      replace (Nat.min (Z.to_nat i + 1) (S m)) with (Z.to_nat i + 1)%nat by lia.
      replace (S (m - Z.to_nat i)) with (S m - Z.to_nat i)%nat by lia.
      reflexivity.
Qed.

End TracePrices.

Section TracePricesExact.

Local Open Scope R_scope.

Lemma iter_div_fin (u : R) (k : nat) (s : R) :
  u <> 0 ->
  Nat.iter k (fun x => fdiv x (Fin u)) (Fin s) = Fin (s / u ^ k).
Proof.
  intros Hu. induction k as [|k IH].
  - cbn. f_equal. field.
  - rewrite Nat.iter_succ, IH, div_fin by assumption.
    f_equal. cbn [pow]. field. split; [now apply pow_nonzero | assumption].
Qed.

Lemma firstn_seq_le (k : nat) : forall s n : nat,
  (k <= n)%nat -> firstn k (seq s n) = seq s k.
Proof.
  induction k as [|k IH]; intros s [|n] Hk; cbn; try reflexivity; try lia.
  f_equal. apply IH. lia.
Qed.

Lemma firstn_py_range (k : nat) (n : Z) :
  (Z.of_nat k <= n)%Z -> firstn k (py_range n) = py_range (Z.of_nat k).
Proof.
  intros Hk. unfold py_range.
  rewrite firstn_map, firstn_seq_le, Nat2Z.id by lia. reflexivity.
Qed.

Lemma nth_error_py_range (n j : Z) :
  (0 <= j < n)%Z -> nth_error (py_range n) (Z.to_nat j) = Some j.
Proof.
  intros Hj. unfold py_range.
  rewrite nth_error_map, nth_error_seq.
  destruct (Nat.ltb_spec (Z.to_nat j) (Z.to_nat n)); [|lia].
  cbn. f_equal. lia.
Qed.

End TracePricesExact.

Section TraceFacts.
Context {F : Type} `{Float64 F}.

Lemma backward_trace_sizes (S K T r sigma q : F) (N : Z) (ot : string) :
  (1 <= N)%Z ->
  map lattice_sizes (backward_trace S K T r sigma q N ot)
  = map (fun i => (i, Z.to_nat (i + 1), Z.to_nat (i + 1))) (py_range_down (N - 1)).
Proof.
  intros HN. unfold backward_trace, py_truediv.
  destruct (Z.eqb_spec N 0); [lia|].
  set (dt := fdiv T (of_int N)). set (u := up_factor sigma dt).
  destruct (initial_lattice_sizes S K u (down_factor u) N ot) as [Ha Ho].
  destruct (initial_lattice _ _ _ _ _ _) as [ap ov]. cbn [fst snd] in Ha, Ho.
  replace (N - 1)%Z with (Z.of_nat (Z.to_nat N) - 1)%Z by lia.
  apply loop_trace_sizes; lia.
Qed.

Lemma backward_trace_steps (S K T r sigma q : F) (N : Z) (ot : string) :
  (1 <= N)%Z ->
  map fst (backward_trace S K T r sigma q N ot) = py_range_down (N - 1).
Proof.
  intros HN.
  pose proof (backward_trace_sizes S K T r sigma q N ot HN) as E.
  apply (f_equal (map (fun x : Z * nat * nat => fst (fst x)))) in E.
  rewrite !map_map in E. cbn [fst] in E. rewrite map_id in E.
  rewrite <- E. apply map_ext. now intros [i [ap ov]].
Qed.

Lemma backward_trace_end (S K T r sigma q : F) (N : Z) (ot : string) :
  (1 <= N)%Z ->
  exists tr ap v,
    backward_trace S K T r sigma q N ot = tr ++ [(0%Z, (ap, [v]))]
    /\ american_option_binomial S K T r sigma q N ot = Ok v.
Proof.
  intros HN. unfold backward_trace, american_option_binomial, py_truediv.
  destruct (Z.eqb_spec N 0); [lia|]. cbn [bind].
  set (dt := fdiv T (of_int N)). set (u := up_factor sigma dt).
  destruct (initial_lattice_sizes S K u (down_factor u) N ot) as [Ha Ho].
  destruct (initial_lattice _ _ _ _ _ _) as [ap ov]. cbn [fst snd] in Ha, Ho.
  replace (N - 1)%Z with (Z.of_nat (Z.to_nat N - 1)) by lia.
  destruct (loop_trace_end K u (risk_neutral_p r q dt u (down_factor u))
              (discount_factor r dt) ot (Z.to_nat N - 1) ap ov)
    as (tr & ap' & v & -> & E); [lia|lia|].
  exists tr, ap', v. split; [reflexivity|]. now rewrite E.
Qed.

End TraceFacts.

(** ** The dispatch on [option_type] *)

Section Dispatch.
Context {F : Type} `{Float64 F}.

Lemma payoff_not_call (ot : string) (K : F) (l : list F) :
  ot <> "call"%string -> payoff ot K l = payoff "put" K l.
Proof.
  intros Hot. unfold payoff.
  destruct (String.eqb_spec ot "call"); [contradiction|reflexivity].
Qed.

Lemma for_each_ext {St : Type} (f g : St -> Z -> result St) :
  (forall st i, f st i = g st i) ->
  forall l st, for_each f l st = for_each g l st.
Proof.
  intros Hfg. induction l as [|i l IH]; intros st; cbn [for_each].
  - reflexivity.
  - rewrite Hfg. destruct (g st i); cbn [bind]; auto.
Qed.

Lemma american_not_call (S K T r sigma q : F) (N : Z) (ot : string) :
  ot <> "call"%string ->
  american_option_binomial S K T r sigma q N ot
  = american_option_binomial S K T r sigma q N "put".
Proof.
  intros Hot. unfold american_option_binomial.
  destruct (py_truediv T N) as [dt|e]; [|reflexivity]. cbn [bind].
  unfold initial_lattice. rewrite (payoff_not_call ot) by assumption.
  erewrite for_each_ext; [reflexivity|].
  intros [ap ov] i. unfold backward_step.
  now rewrite (payoff_not_call ot) by assumption.
Qed.

End Dispatch.

Section AssetPrices.

Local Open Scope R_scope.

Lemma backward_trace_asset_prices (S K T r sigma q : R) (N : Z) (ot : string) :
  0 < T -> (1 <= N)%Z -> 0 < sigma ->
  forall i ap ov,
    In (i, (ap, ov))
       (backward_trace (Fin S) (Fin K) (Fin T) (Fin r) (Fin sigma) (Fin q) N ot) ->
    (0 <= i < N)%Z
    /\ ap = map (fun j => Fin (S * Exact.up sigma (T / IZR N) ^ Z.to_nat j
                             * Exact.down (Exact.up sigma (T / IZR N)) ^ Z.to_nat (N - j)
                             / Exact.up sigma (T / IZR N) ^ Z.to_nat (N - i)))
                (py_range (i + 1)).
Proof.
  intros HT HN Hs i ap ov Hin.
  pose proof (dt_pos T N HT HN) as Hdt.
  pose proof (up_gt_1 sigma (T / IZR N) Hs Hdt) as Hu.
  unfold backward_trace in Hin. rewrite truediv_fin in Hin by assumption.
  rewrite up_factor_fin in Hin by lra.
  rewrite down_factor_fin in Hin by lra.
  set (u := Exact.up sigma (T / IZR N)) in *.
  set (d := Exact.down u) in *.
  replace (N - 1)%Z with (Z.of_nat (Z.to_nat N) - 1)%Z in Hin by lia.
  unfold initial_lattice in Hin.
  apply loop_trace_asset_prices in Hin.
  - destruct Hin as [Hi ->]. split; [lia|].
    rewrite terminal_fin. unfold Exact.terminal.
    rewrite map_map, firstn_map.
    replace (Z.to_nat i + 1)%nat with (Z.to_nat (i + 1)) by lia.
    rewrite firstn_py_range by lia. rewrite Z2Nat.id by lia.
    rewrite map_map. apply map_ext. intros j.
    rewrite iter_div_fin by lra.
    repeat f_equal. lia.
  - rewrite terminal_asset_prices_length. lia.
  - rewrite payoff_length, terminal_asset_prices_length. lia.
Qed.

Lemma pow_ratio_lt_1 (u d : R) (a : nat) :
  1 < u -> 0 < d < 1 -> (0 < a)%nat -> 0 < d ^ a / u ^ a < 1.
Proof.
  intros Hu Hd Ha.
  assert (H1 : 1 <= u ^ a) by (apply pow_R1_Rle; lra).
  assert (H2 : 0 <= d ^ a < 1) by (apply pow_lt_1_compat; [lra|assumption]).
  assert (H3 : 0 < d ^ a) by (apply pow_lt; lra).
  split.
  - apply Rdiv_lt_0_compat; lra.
  - apply Rmult_lt_reg_r with (u ^ a); [lra|].
    unfold Rdiv. rewrite Rmult_assoc, Rinv_l by lra. lra.
Qed.

End AssetPrices.

(** ** Lattices of one and two steps *)

Section SmallLattices.

Local Open Scope R_scope.
Variables (S K T r sigma q : R) (ot : string).

(** One step: two terminal nodes, one backward step. *)
Lemma exact_american_one_step :
  let u := Exact.up sigma (T / 1) in
  let d := Exact.down u in
  let p := Exact.prob r q (T / 1) u d in
  let dc := Exact.disc r (T / 1) in
  let pay := Exact.payoff1 ot K in
  let s0 := S * u ^ 0 * d ^ 1 in
  let s1 := S * u ^ 1 * d ^ 0 in
  Exact.american S K T r sigma q 1 ot
  = ([s0 / u],
     [Rmax ((p * pay s1 + (1 - p) * pay s0) * dc) (pay (s0 / u))]).
Proof. reflexivity. Qed.



End SmallLattices.

Section Bounds.
Local Open Scope R_scope.

Lemma exp_neg_le_1 (y : R) : y <= 0 -> exp y <= 1.
Proof.
  intros Hy. destruct Hy as [Hy | ->].
  - rewrite <- exp_0. left. now apply exp_increasing.
  - rewrite exp_0. lra.
Qed.

Lemma exp_le_compat (x y : R) : x <= y -> exp x <= exp y.
Proof.
  intros [H| ->]; [left; now apply exp_increasing | lra].
Qed.

(** [p * u + (1 - p) * d] is the growth factor [exp ((r - q) * dt)]. *)
Lemma prob_weights (r q dt u d : R) :
  u - d <> 0 ->
  Exact.prob r q dt u d * u + (1 - Exact.prob r q dt u d) * d
  = exp ((r - q) * dt).
Proof. intros Hud. unfold Exact.prob. field. exact Hud. Qed.

Lemma prob_in_unit (r q dt u d : R) :
  d < u -> d <= exp ((r - q) * dt) <= u ->
  0 <= Exact.prob r q dt u d <= 1.
Proof.
  intros Hud [H1 H2]. unfold Exact.prob. split.
  - apply Rmult_le_pos; [lra|]. left. apply Rinv_0_lt_compat. lra.
  - apply Rmult_le_reg_r with (u - d); [lra|].
    unfold Rdiv. rewrite Rmult_assoc, Rinv_l by lra. lra.
Qed.

Lemma call_payoff_le (K s : R) : 0 <= K -> 0 <= s -> 0 <= Exact.payoff1 "call" K s <= s.
Proof.
  intros HK Hs. change (Exact.payoff1 "call" K s) with (Rmax (s - K) 0). split.
  - apply Rmax_r.
  - apply Rmax_lub; lra.
Qed.

End Bounds.

Section ValidParameters.

Local Open Scope R_scope.

Lemma risk_neutral_probability_fin (T r sigma q : R) (N : Z) :
  0 < T -> (1 <= N)%Z -> 0 < sigma ->
  risk_neutral_probability (Fin T) (Fin r) (Fin sigma) (Fin q) N
  = Ok (Fin (Exact.prob r q (T / IZR N) (Exact.up sigma (T / IZR N))
                        (Exact.down (Exact.up sigma (T / IZR N))))).
Proof.
  intros HT HN Hs.
  pose proof (dt_pos T N HT HN) as Hdt.
  pose proof (up_gt_1 sigma (T / IZR N) Hs Hdt) as Hu.
  pose proof (down_lt_1 _ Hu) as Hd.
  unfold risk_neutral_probability. rewrite truediv_fin by assumption.
  cbn [bind]. rewrite up_factor_fin by lra. rewrite down_factor_fin by lra.
  rewrite risk_neutral_p_fin by lra. reflexivity.
Qed.

Lemma payoff1_nonneg (ot : string) (K s : R) : 0 <= Exact.payoff1 ot K s.
Proof. unfold Exact.payoff1. destruct (String.eqb ot "call"); apply Rmax_r. Qed.

Lemma zip_with_Rmax_payoff_nonneg (ot : string) (K : R) (ap : list R) :
  forall c, Forall (Rle 0) (zip_with Rmax c (Exact.payoff ot K ap)).
Proof.
  unfold Exact.payoff. induction ap as [|s ap IH]; intros [|x c]; cbn; constructor.
  - apply Rle_trans with (Exact.payoff1 ot K s);
      [apply payoff1_nonneg | apply Rmax_r].
  - apply IH.
Qed.

(** With at least one step taken, the values left are exercise values
    or more, hence not negative. *)
Lemma exact_fold_nonneg (K u p dc : R) (ot : string) (l : list Z) :
  forall st, Forall (Rle 0) (snd st) ->
             Forall (Rle 0) (snd (fold_left (Exact.step K u p dc ot) l st)).
Proof.
  induction l as [|i l IH]; intros st Hst; cbn [fold_left].
  - exact Hst.
  - apply IH. unfold Exact.step. cbn [snd]. apply zip_with_Rmax_payoff_nonneg.
Qed.

Lemma exact_initial_nonneg (S K u d : R) (N : Z) (ot : string) :
  Forall (Rle 0) (snd (Exact.initial S K u d N ot)).
Proof.
  unfold Exact.initial, Exact.payoff. cbn [snd].
  apply Forall_map, Forall_forall. intros s _. apply payoff1_nonneg.
Qed.

End ValidParameters.

(** ** Zero volatility: [u = d = 1] and a quotient by zero *)

Section ZeroVolatility.

Local Open Scope R_scope.

Lemma zip_with_all_nan (f : float -> float -> float) (P Q : float -> Prop) :
  (forall x y, P x -> Q y -> f x y = NaN) ->
  forall a b, Forall P a -> Forall Q b -> Forall (eq NaN) (zip_with f a b).
Proof.
  intros Hf. induction a as [|x a IH]; intros [|y b] Ha Hb; cbn; constructor.
  - symmetry. apply Hf; [now inversion Ha | now inversion Hb].
  - apply IH; [now inversion Ha | now inversion Hb].
Qed.

Lemma broadcast2_all_nan (f : float -> float -> float) (P Q : float -> Prop) :
  (forall x y, P x -> Q y -> f x y = NaN) ->
  forall a b o, Forall P a -> Forall Q b ->
                broadcast2 f a b = Ok o -> Forall (eq NaN) o.
Proof.
  intros Hf a b o Ha Hb. unfold broadcast2.
  destruct (List.length a =? List.length b)%nat.
  - intros [= <-]. now apply zip_with_all_nan with P Q.
  - destruct a as [|x [|x' a]].
    + destruct b as [|y [|y' b]]; try discriminate.
      intros [= <-]. constructor.
    + intros [= <-]. apply Forall_map. inversion Ha; subst.
      eapply Forall_impl; [|exact Hb]. intros y Hy. symmetry. now apply Hf.
    + destruct b as [|y [|y' b]]; try discriminate.
      intros [= <-].
      change (Forall (eq NaN) (map (fun z => f z y) (x :: x' :: a))).
      apply Forall_map. inversion Hb; subst.
      eapply Forall_impl; [|exact Ha]. intros z Hz. symmetry. now apply Hf.
Qed.

Lemma Forall_firstn_skipn {A : Type} (P : A -> Prop) (n : nat) (l : list A) :
  Forall P l -> Forall P (firstn n l) /\ Forall P (skipn n l).
Proof. intros Hl. apply Forall_app. now rewrite firstn_skipn. Qed.

Lemma Forall_slice_to {A : Type} (P : A -> Prop) (k : Z) (l : list A) :
  Forall P l -> Forall P (slice_to k l).
Proof.
  intros Hl. unfold slice_to.
  destruct (k <? 0)%Z; now apply Forall_firstn_skipn.
Qed.

Lemma Forall_slice_from1 {A : Type} (P : A -> Prop) (l : list A) :
  Forall P l -> Forall P (slice_from1 l).
Proof. intros Hl. unfold slice_from1. now apply Forall_firstn_skipn. Qed.

(** NaN in, NaN out: a step keeps a lattice of NaN values. *)
Lemma continuation_nan (p dc : float) (ov c : list float) :
  Forall (eq NaN) ov -> continuation p dc ov = Ok c -> Forall (eq NaN) c.
Proof.
  intros Hov. unfold continuation.
  destruct (broadcast2 fadd _ _) as [s|e] eqn:E; [|discriminate].
  cbn [bind]. intros [= <-].
  apply Forall_map.
  apply (broadcast2_all_nan fadd (eq NaN) (fun _ => True)) in E.
  - eapply Forall_impl; [|exact E]. now intros x <-.
  - now intros x y <- _.
  - apply Forall_map, Forall_slice_from1.
    eapply Forall_impl; [|exact Hov]. intros x <-. now destruct p.
  - apply Forall_forall. trivial.
Qed.

Lemma backward_step_nan (K u p dc : float) (ot : string) ap ov ap' ov' (i : Z) :
  Forall (eq NaN) ov ->
  backward_step K u p dc ot (ap, ov) i = Ok (ap', ov') -> Forall (eq NaN) ov'.
Proof.
  intros Hov. unfold backward_step.
  destruct (continuation p dc ov) as [c|e] eqn:Ec; [|discriminate].
  cbn [bind].
  destruct (broadcast2 np_max c _) as [o|e] eqn:Eo; [|discriminate].
  cbn [bind]. intros [= _ <-].
  apply (broadcast2_all_nan np_max (eq NaN) (fun _ => True)) in Eo.
  - exact Eo.
  - now intros x y <- _.
  - now apply continuation_nan with p dc ov.
  - apply Forall_forall. trivial.
Qed.

Lemma for_each_nan (K u p dc : float) (ot : string) (l : list Z) :
  forall ap ov st,
    Forall (eq NaN) ov ->
    for_each (backward_step K u p dc ot) l (ap, ov) = Ok st ->
    Forall (eq NaN) (snd st).
Proof.
  induction l as [|i l IH]; intros ap ov st Hov; cbn [for_each].
  - now intros [= <-].
  - destruct (backward_step K u p dc ot (ap, ov) i) as [[ap1 ov1]|e] eqn:E;
      [|discriminate].
    cbn [bind]. apply IH. now apply backward_step_nan in E.
Qed.

(** An infinite or NaN probability turns finite non-negative values
    into NaN: [inf * 0], or [inf - inf]. *)
Lemma weights_nan (p : float) (a b : R) :
  not_finite p -> 0 <= a -> 0 <= b ->
  fadd (fmul p (Fin a)) (fmul (fsub (of_int 1) p) (Fin b)) = NaN.
Proof.
  intros Hp Ha Hb. destruct p as [x| | |]; [contradiction| | |reflexivity]; cbn;
    unfold Ideal.signed_inf;
    repeat match goal with
           | |- context [Rlt_dec ?x ?y] => destruct (Rlt_dec x y)
           end; try reflexivity; lra.
Qed.

Lemma continuation_not_finite (p : float) (dc : float) (l : list R) (c : list float) :
  not_finite p -> Forall (Rle 0) l ->
  continuation p dc (map Fin l) = Ok c -> Forall (eq NaN) c.
Proof.
  intros Hp Hl. unfold continuation.
  destruct (broadcast2 fadd _ _) as [s|e] eqn:E; [|discriminate].
  cbn [bind]. intros [= <-]. apply Forall_map.
  apply (broadcast2_all_nan fadd
           (fun x => exists a, 0 <= a /\ x = fmul p (Fin a))
           (fun y => exists b, 0 <= b /\ y = fmul (fsub (of_int 1) p) (Fin b))) in E.
  - eapply Forall_impl; [|exact E]. now intros x <-.
  - intros x y (a & Ha & ->) (b & Hb & ->). now apply weights_nan.
  - apply Forall_map, Forall_slice_from1, Forall_map.
    eapply Forall_impl; [|exact Hl]. intros a Ha. now exists a.
  - apply Forall_map, Forall_slice_to, Forall_map.
    eapply Forall_impl; [|exact Hl]. intros b Hb. now exists b.
Qed.

End ZeroVolatility.

Section ZeroVolatilityCall.

Local Open Scope R_scope.

Lemma backward_step_not_finite (K u p dc : float) (ot : string)
      ap (l : list R) ap' ov' (i : Z) :
  not_finite p -> Forall (Rle 0) l ->
  backward_step K u p dc ot (ap, map Fin l) i = Ok (ap', ov') ->
  Forall (eq NaN) ov'.
Proof.
  intros Hp Hl. unfold backward_step.
  destruct (continuation p dc (map Fin l)) as [c|e] eqn:Ec; [|discriminate].
  cbn [bind].
  destruct (broadcast2 np_max c _) as [o|e] eqn:Eo; [|discriminate].
  cbn [bind]. intros [= _ <-].
  apply (broadcast2_all_nan np_max (eq NaN) (fun _ => True)) in Eo.
  - exact Eo.
  - now intros x y <- _.
  - now apply continuation_not_finite with p dc l.
  - apply Forall_forall. trivial.
Qed.

Lemma up_zero_volatility (dt : R) : Exact.up 0 dt = 1.
Proof. unfold Exact.up. now rewrite Rmult_0_l, exp_0. Qed.

(** With [u = d = 1] the probability is a quotient by zero. *)
Lemma risk_neutral_p_degenerate (r q dt : R) :
  not_finite (risk_neutral_p (Fin r) (Fin q) (Fin dt) (Fin 1) (Fin 1)).
Proof.
  unfold risk_neutral_p. cbn. destruct (Req_dec_T (1 + - (1)) 0) as [_|Hne].
  - unfold Ideal.signed_inf.
    repeat match goal with
           | |- context [Rlt_dec ?x ?y] => destruct (Rlt_dec x y)
           end; exact I.
  - exfalso. apply Hne. lra.
Qed.

Lemma zero_volatility_nan (S K T r q : R) (N : Z) (ot : string) :
  0 < T -> (1 <= N)%Z ->
  american_option_binomial (Fin S) (Fin K) (Fin T) (Fin r) (Fin 0) (Fin q) N ot
  = Ok NaN.
Proof.
  intros HT HN.
  pose proof (dt_pos T N HT HN) as Hdt.
  unfold american_option_binomial. rewrite truediv_fin by assumption.
  cbn [bind]. rewrite up_factor_fin by lra. rewrite up_zero_volatility.
  rewrite down_factor_fin by lra.
  replace (Exact.down 1) with 1 by (unfold Exact.down; lra).
  pose proof (risk_neutral_p_degenerate r q (T / IZR N)) as Hp.
  set (p := risk_neutral_p (Fin r) (Fin q) (Fin (T / IZR N)) (Fin 1) (Fin 1)) in *.
  set (dc := discount_factor (Fin r) (Fin (T / IZR N))).
  rewrite initial_lattice_fin.
  pose proof (exact_initial_nonneg S K 1 1 N ot) as Hnn.
  assert (Hlen : List.length (fst (Exact.initial S K 1 1 N ot))
                 = Datatypes.S (Datatypes.S (Z.to_nat (N - 1)))
                 /\ List.length (snd (Exact.initial S K 1 1 N ot))
                    = Datatypes.S (Datatypes.S (Z.to_nat (N - 1)))).
  { unfold Exact.initial. cbn [fst snd].
    rewrite exact_payoff_length, exact_terminal_length. lia. }
  destruct Hlen as [Ha Ho].
  destruct (Exact.initial S K 1 1 N ot) as [ap ov]. cbn [fst snd] in *.
  replace (N - 1)%Z with (Z.of_nat (Z.to_nat (N - 1))) by lia.
  rewrite py_range_down_S. cbn [for_each].
  destruct (backward_step_ok (Fin K) (Fin 1) p dc ot (Z.to_nat (N - 1))
                             (map Fin ap) (map Fin ov))
    as (ap1 & ov1 & E1 & Ha1 & Ho1); [now rewrite length_map..|].
  rewrite E1. cbn [bind].
  apply backward_step_not_finite in E1; [|assumption..].
  destruct (for_each_shape (Fin K) (Fin 1) p dc ot (Z.to_nat (N - 1)) ap1 ov1 Ha1 Ho1)
    as (ap2 & v & E2).
  rewrite E2. cbn [bind snd index0].
  apply for_each_nan in E2; [|assumption]. cbn [snd] in E2.
  inversion E2; subst. reflexivity.
Qed.

End ZeroVolatilityCall.

(** ** The root node *)

Section RootNode.

Local Open Scope R_scope.
Variables (K u p dc : R) (ot : string).

(** The lowest node is divided by [u] at every step. *)
Lemma exact_fold_head (m : nat) : forall a0 rest ov,
  u <> 0 ->
  exists rest',
    fst (fold_left (Exact.step K u p dc ot)
                   (py_range_down (Z.of_nat m - 1)) (a0 :: rest, ov))
    = a0 / u ^ m :: rest'.
Proof.
  induction m as [|m IH]; intros a0 rest ov Hu.
  - rewrite py_range_down_neg by lia. cbn [fold_left fst pow].
    exists rest. f_equal. field.
  - replace (Z.of_nat (S m) - 1)%Z with (Z.of_nat m) by lia.
    rewrite py_range_down_S. cbn [fold_left].
    unfold Exact.step at 2. cbn [fst snd]. unfold slice_to.
    destruct (Z.ltb_spec (Z.of_nat m + 1) 0); [lia|].
    replace (Z.to_nat (Z.of_nat m + 1)) with (S m) by lia.
    cbn [firstn map].
    destruct (IH (a0 / u) (map (fun s => s / u) (firstn m rest))
                 (zip_with Rmax (Exact.continuation p dc ov)
                    (Exact.payoff ot K
                       (a0 / u :: map (fun s => s / u) (firstn m rest)))) Hu)
      as (rest' & ->).
    exists rest'. f_equal. cbn [pow]. field.
    split; [now apply pow_nonzero | assumption].
Qed.

Lemma py_range_down_last (m : nat) :
  py_range_down (Z.of_nat m)
  = map (fun k => (Z.of_nat m - Z.of_nat k)%Z) (seq 0 m) ++ [0%Z].
Proof.
  unfold py_range_down.
  replace (Z.to_nat (Z.of_nat m + 1)) with (S m) by lia.
  rewrite seq_S, map_app. cbn [map]. repeat f_equal. lia.
Qed.

(** The value a step leaves at a node is at least the exercise value
    at the asset price the step computed for it. *)
Lemma exact_step_value_ge_exercise (st : list R * list R) (i : Z) (a v : R) :
  Exact.step K u p dc ot st i = ([a], [v]) -> Exact.payoff1 ot K a <= v.
Proof.
  unfold Exact.step. intros [= Ea Ev]. rewrite Ea in Ev.
  cbn [Exact.payoff map] in Ev.
  destruct (Exact.continuation p dc (snd st)) as [|c cs]; [discriminate|].
  cbn [zip_with] in Ev. injection Ev as <- _. apply Rmax_r.
Qed.

Lemma exact_fold_root (m : nat) (st : list R * list R) (a v : R) :
  fold_left (Exact.step K u p dc ot) (py_range_down (Z.of_nat m)) st = ([a], [v]) ->
  Exact.payoff1 ot K a <= v.
Proof.
  rewrite py_range_down_last, fold_left_app. cbn [fold_left].
  apply exact_step_value_ge_exercise.
Qed.

End RootNode.

Section PutBound.

Local Open Scope R_scope.

(** The put half of the intrinsic-value bound: the exercise value the
    last step compares with is taken at a price below the spot, which
    for a put is above the intrinsic value at the spot. *)
Lemma put_price_ge_intrinsic (S K T r sigma q : R) (N : Z) :
  0 < S -> 0 < T -> (1 <= N)%Z -> 0 < sigma ->
  exists v : R,
    american_option_binomial (Fin S) (Fin K) (Fin T) (Fin r) (Fin sigma) (Fin q)
                             N "put" = Ok (Fin v)
    /\ Rmax (K - S) 0 <= v.
Proof.
  intros HS HT HN Hs.
  destruct (american_fin S K T r sigma q N "put" HT HN Hs) as (a & v & E & Hv).
  exists v. split; [exact Hv|].
  pose proof (dt_pos T N HT HN) as Hdt.
  pose proof (up_gt_1 sigma (T / IZR N) Hs Hdt) as Hu.
  pose proof (down_lt_1 _ Hu) as Hd.
  unfold Exact.american in E. cbv zeta in E.
  set (u := Exact.up sigma (T / IZR N)) in *.
  set (d := Exact.down u) in *.
  set (p := Exact.prob r q (T / IZR N) u d) in *.
  set (dc := Exact.disc r (T / IZR N)) in *.
  assert (Ha : a = S * u ^ 0 * d ^ Z.to_nat N / u ^ Z.to_nat N).
  { unfold Exact.initial, Exact.terminal in E.
    replace (N + 1)%Z with (Z.of_nat (Datatypes.S (Z.to_nat N))) in E by lia.
    unfold py_range in E. rewrite Nat2Z.id in E. cbn [seq map] in E.
    replace (N - 1)%Z with (Z.of_nat (Z.to_nat N) - 1)%Z in E by lia.
    match type of E with
    | fold_left _ _ (?a0 :: ?rest, ?ov) = _ =>
        destruct (exact_fold_head K u p dc "put" (Z.to_nat N) a0 rest ov
                    ltac:(lra)) as (rest' & Eh)
    end.
    rewrite E in Eh. cbn [fst] in Eh. injection Eh as -> _.
    cbn [Z.of_nat Z.to_nat]. repeat f_equal. lia. }
  replace (N - 1)%Z with (Z.of_nat (Z.to_nat N - 1)) in E by lia.
  apply exact_fold_root in E.
  change (Exact.payoff1 "put" K a) with (Rmax (K - a) 0) in E.
  assert (Hle : a <= S).
  { rewrite Ha. cbn [pow].
    pose proof (pow_ratio_lt_1 u d (Z.to_nat N) Hu Hd ltac:(lia)) as Hr.
    replace (S * 1 * d ^ Z.to_nat N / u ^ Z.to_nat N)
      with (S * (d ^ Z.to_nat N / u ^ Z.to_nat N)) by (unfold Rdiv; ring).
    nra. }
  apply Rle_trans with (Rmax (K - a) 0); [|exact E].
  apply Rmax_lub; [|apply Rmax_r].
  apply Rle_trans with (K - a); [lra | apply Rmax_l].
Qed.

End PutBound.

(** ** Either division *)

Section EitherDivision.

Context {F : Type} `{Float64 F}.


(** With a divisor other than zero the two divisions agree. *)
Lemma american_with_nonzero (dv : division) (S K T r sigma q : F) (N : Z) (ot : string) :
  N <> 0%Z ->
  american_option_binomial_with dv S K T r sigma q N ot
  = american_option_binomial S K T r sigma q N ot.
Proof.
  intros HN. destruct dv; [reflexivity|].
  unfold american_option_binomial_with, american_option_binomial, truediv, py_truediv.
  destruct (Z.eqb_spec N 0); [contradiction|reflexivity].
Qed.

(** With no step and numpy's division nothing is raised: the loop does
    not run and the payoff of the single terminal node is returned. *)
Lemma american_with_numpy_zero_steps (S K T r sigma q : F) (ot : string) :
  american_option_binomial_with NumpyDivision S K T r sigma q 0 ot
  = let u := up_factor sigma (fdiv T (of_int 0)) in
    index0 (payoff ot K (terminal_asset_prices S u (down_factor u) 0)).
Proof. reflexivity. Qed.

Lemma american_with_numpy_zero_steps_value (S K T r sigma q : F) (ot : string) :
  exists v, american_option_binomial_with NumpyDivision S K T r sigma q 0 ot = Ok v.
Proof.
  rewrite american_with_numpy_zero_steps. cbv zeta.
  unfold terminal_asset_prices, payoff. cbn [py_range Z.add Z.to_nat Pos.to_nat
    Pos.iter_op Nat.add seq map].
  destruct (String.eqb ot "call"); eexists; reflexivity.
Qed.

End EitherDivision.

(** ** The sign of what is returned

    Every value in the lattice comes out of [np.maximum] against an
    exercise value, itself [np.maximum] against 0. *)

Section Sign.

Context {F : Type} `{Float64 F}.
Variable good : F -> Prop.
Hypothesis good_zero : forall x, good (np_max x (of_int 0)).
Hypothesis good_max : forall a b, good b -> good (np_max a b).







End Sign.

Section Raises.

Context {F : Type} `{Float64 F}.


End Raises.

Section SignIdeal.

Local Open Scope R_scope.



(** With numpy's division the call with no step returns the payoff at
    the spot, here 10. *)
Lemma numpy_division_zero_steps_example :
  american_option_binomial_with NumpyDivision (Fin 100) (Fin 90) (Fin 1)
                                (Fin (5 / 100)) (Fin (2 / 10)) (Fin 0) 0 "call"
  = Ok (Fin 10).
Proof.
  rewrite american_with_numpy_zero_steps.
  change (Ok (Fin (Rmax (100 * 1 * 1 + - 90) 0)) = Ok (Fin 10)).
  rewrite Rmax_left by lra. do 2 f_equal. lra.
Qed.

End SignIdeal.

(** ** Finite values on valid parameters *)

(** In exact arithmetic, with a positive maturity, at least one step and
    a positive volatility, the value returned is moreover finite. *)
Lemma exact_price_finite_nonneg
        (S K T r sigma q : R) (N : Z) (ot : string) :
  (0 < T)%R -> (1 <= N)%Z -> (0 < sigma)%R ->
  exists v : R,
    american_option_binomial (Fin S) (Fin K) (Fin T) (Fin r) (Fin sigma) (Fin q) N ot
    = Ok (Fin v)
    /\ (0 <= v)%R.
Proof.
  intros HT HN Hs.
  destruct (american_fin S K T r sigma q N ot HT HN Hs) as (sa & v & E & Hv).
  exists v. split; [exact Hv|].
  unfold Exact.american in E. cbv zeta in E.
  pose proof (exact_fold_nonneg K (Exact.up sigma (T / IZR N))
                (Exact.prob r q (T / IZR N) (Exact.up sigma (T / IZR N))
                            (Exact.down (Exact.up sigma (T / IZR N))))
                (Exact.disc r (T / IZR N)) ot (py_range_down (N - 1)) _
                (exact_initial_nonneg S K (Exact.up sigma (T / IZR N))
                   (Exact.down (Exact.up sigma (T / IZR N))) N ot)) as Hnn.
  rewrite E in Hnn. cbn [snd] in Hnn. now inversion Hnn.
Qed.

(** * The claims *)

(** C1. The claim: at step [i] of the backward induction the asset price
    compared with the strike at node [j] is [spot * u^j * d^(i-j)].
    What the code computes: [asset_prices[:i+1] / u] divides node [j] of
    step [i + 1] itself, not the node above it, so that at step [i] node
    [j] holds [spot * u^j * d^(N-j) / u^(N-i)], which for a positive
    spot and a positive volatility is strictly below
    [spot * u^j * d^(i-j)] at every step and every node. *)
Theorem backward_asset_prices_below_lattice
        (S K T r sigma q : R) (N : Z) (ot : string) :
  (0 < S)%R -> (0 < T)%R -> (1 <= N)%Z -> (0 < sigma)%R ->
  let u := Exact.up sigma (T / IZR N) in
  let d := Exact.down u in
  map fst (backward_trace (Fin S) (Fin K) (Fin T) (Fin r) (Fin sigma) (Fin q) N ot)
  = py_range_down (N - 1)
  /\ forall i ap ov,
      In (i, (ap, ov))
         (backward_trace (Fin S) (Fin K) (Fin T) (Fin r) (Fin sigma) (Fin q) N ot) ->
      forall j, (0 <= j <= i)%Z ->
        exists x : R,
          nth_error ap (Z.to_nat j) = Some (Fin x)
          /\ x = (S * u ^ Z.to_nat j * d ^ Z.to_nat (N - j) / u ^ Z.to_nat (N - i))%R
          /\ (x < S * u ^ Z.to_nat j * d ^ Z.to_nat (i - j))%R.
Proof.
  intros HS HT HN Hs u d. split.
  - now apply backward_trace_steps.
  - intros i ap ov Hin j Hj.
    destruct (backward_trace_asset_prices S K T r sigma q N ot HT HN Hs i ap ov Hin)
      as [Hi ->].
    fold u. fold d.
    eexists. split; [|split; [reflexivity|]].
    + rewrite nth_error_map, nth_error_py_range by lia. reflexivity.
    + pose proof (dt_pos T N HT HN) as Hdt.
      pose proof (up_gt_1 sigma (T / IZR N) Hs Hdt) as Hu. fold u in Hu.
      pose proof (down_lt_1 _ Hu) as Hd. fold d in Hd.
      replace (Z.to_nat (N - j)) with (Z.to_nat (i - j) + Z.to_nat (N - i))%nat by lia.
      rewrite pow_add.
      assert (Hr := pow_ratio_lt_1 u d (Z.to_nat (N - i)) Hu Hd ltac:(lia)).
      assert (Hb : (0 < S * u ^ Z.to_nat j * d ^ Z.to_nat (i - j))%R).
      { repeat apply Rmult_lt_0_compat; try assumption; apply pow_lt; lra. }
      set (b := (S * u ^ Z.to_nat j * d ^ Z.to_nat (i - j))%R) in *.
      replace (S * u ^ Z.to_nat j * (d ^ Z.to_nat (i - j) * d ^ Z.to_nat (N - i))
               / u ^ Z.to_nat (N - i))%R
        with (b * (d ^ Z.to_nat (N - i) / u ^ Z.to_nat (N - i)))%R
        by (unfold b, Rdiv; ring).
      nra.
Qed.

Lemma backward_asset_prices_below_lattice_witness :
  (0 < 100)%R /\ (0 < 1)%R /\ (1 <= 50)%Z /\ (0 < 2 / 10)%R
  /\ let u := Exact.up (2 / 10) (1 / 50) in
     let d := Exact.down u in
     map fst (backward_trace (Fin 100) (Fin 100) (Fin 1) (Fin (5 / 100))
                             (Fin (2 / 10)) (Fin 0) 50 "put")
     = py_range_down (50 - 1)
     /\ forall i ap ov,
         In (i, (ap, ov))
            (backward_trace (Fin 100) (Fin 100) (Fin 1) (Fin (5 / 100))
                            (Fin (2 / 10)) (Fin 0) 50 "put") ->
         forall j, (0 <= j <= i)%Z ->
           exists x : R,
             nth_error ap (Z.to_nat j) = Some (Fin x)
             /\ x = (100 * u ^ Z.to_nat j * d ^ Z.to_nat (50 - j)
                     / u ^ Z.to_nat (50 - i))%R
             /\ (x < 100 * u ^ Z.to_nat j * d ^ Z.to_nat (i - j))%R.
Proof.
  assert (H1 : (0 < 100)%R) by lra.
  assert (H2 : (0 < 1)%R) by lra.
  assert (H3 : (1 <= 50)%Z) by lia.
  assert (H4 : (0 < 2 / 10)%R) by lra.
  repeat (split; [assumption|]).
  exact (backward_asset_prices_below_lattice
           100 100 1 (5 / 100) (2 / 10) 0 50 "put" H1 H2 H3 H4).
Defined.

(** C2, as the code has it. With volatility 0, a positive spot, strike
    and maturity and at least one step, the call raises nothing and
    returns NaN: [u - d] is zero, the probability is an infinity or NaN,
    and no branch treats the case apart. *)
Theorem zero_volatility_returns_nan
        (S K T r q : R) (N : Z) (ot : string) :
  (0 < S)%R -> (0 < K)%R -> (0 < T)%R -> (1 <= N)%Z ->
  american_option_binomial (Fin S) (Fin K) (Fin T) (Fin r) (Fin 0) (Fin q) N ot
  = Ok NaN.
Proof. intros _ _ HT HN. now apply zero_volatility_nan. Qed.

Lemma zero_volatility_returns_nan_witness :
  (0 < 100)%R /\ (0 < 100)%R /\ (0 < 1)%R /\ (1 <= 10)%Z
  /\ american_option_binomial (Fin 100) (Fin 100) (Fin 1) (Fin (5 / 100)) (Fin 0)
                              (Fin 0) 10 "put" = Ok NaN.
Proof.
  assert (H1 : (0 < 100)%R) by lra.
  assert (H2 : (0 < 1)%R) by lra.
  assert (H3 : (1 <= 10)%Z) by lia.
  repeat (split; [assumption|]).
  exact (zero_volatility_returns_nan 100 100 1 (5 / 100) 0 10 "put" H1 H1 H2 H3).
Defined.

(** C2 fails as stated: with [volatility = 0], [rate = 0.05],
    [dividend_yield = 0], [spot = strike = 100] and [maturity = 1] neither
    the call nor the put is a discounted payoff; both are NaN. *)
Lemma zero_volatility_is_not_special_cased :
  american_option_binomial (Fin 100) (Fin 100) (Fin 1) (Fin (5 / 100)) (Fin 0)
                           (Fin 0) 50 "call" = Ok NaN
  /\ american_option_binomial (Fin 100) (Fin 100) (Fin 1) (Fin (5 / 100)) (Fin 0)
                              (Fin 0) 50 "put" = Ok NaN.
Proof. split; apply zero_volatility_nan; (lra || lia). Qed.

(** C3, as the code has it. A kind that is neither ['call'] nor ['put']
    raises no error of its own: the call does what it does for ['put'],
    returning a value when there is at least one step, and raising
    Python's [ZeroDivisionError] or [IndexError] when there is none. *)
Theorem unknown_kind_takes_the_put_branch
        {F : Type} `{Float64 F}
        (S K T r sigma q : F) (N : Z) (option_type : string) :
  option_type <> "call"%string -> option_type <> "put"%string ->
  american_option_binomial S K T r sigma q N option_type
  = american_option_binomial S K T r sigma q N "put"
  /\ match (N ?= 0)%Z with
     | Gt => exists v, american_option_binomial S K T r sigma q N option_type = Ok v
     | Eq => american_option_binomial S K T r sigma q N option_type
             = Raise ZeroDivisionError
     | Lt => american_option_binomial S K T r sigma q N option_type
             = Raise IndexError
     end.
Proof.
  intros Hc _. split; [now apply american_not_call|].
  destruct (Z.compare_spec N 0) as [-> | HN | HN].
  - apply american_zero_steps.
  - now apply american_negative_steps.
  - apply american_returns. lia.
Qed.

Lemma unknown_kind_takes_the_put_branch_witness :
  "straddle"%string <> "call"%string /\ "straddle"%string <> "put"%string
  /\ american_option_binomial (Fin 100) (Fin 100) (Fin 1) (Fin (5 / 100))
                              (Fin (2 / 10)) (Fin 0) 50 "straddle"
     = american_option_binomial (Fin 100) (Fin 100) (Fin 1) (Fin (5 / 100))
                                (Fin (2 / 10)) (Fin 0) 50 "put"
  /\ exists v : float,
      american_option_binomial (Fin 100) (Fin 100) (Fin 1) (Fin (5 / 100))
                               (Fin (2 / 10)) (Fin 0) 50 "straddle" = Ok v.
Proof.
  assert (Hc : "straddle"%string <> "call"%string) by discriminate.
  assert (Hp : "straddle"%string <> "put"%string) by discriminate.
  split; [exact Hc|]. split; [exact Hp|].
  exact (unknown_kind_takes_the_put_branch
           (Fin 100) (Fin 100) (Fin 1) (Fin (5 / 100)) (Fin (2 / 10)) (Fin 0)
           50 "straddle" Hc Hp).
Defined.

(** C3 fails as stated: the kind ['straddle'] is priced, not refused. *)
Lemma unknown_kind_returns_a_price :
  "straddle"%string <> "call"%string /\ "straddle"%string <> "put"%string
  /\ (exists v : float,
        american_option_binomial (Fin 100) (Fin 100) (Fin 1) (Fin (5 / 100))
                                 (Fin (2 / 10)) (Fin 0) 50 "straddle" = Ok v)
  /\ forall e : exn,
      american_option_binomial (Fin 100) (Fin 100) (Fin 1) (Fin (5 / 100))
                               (Fin (2 / 10)) (Fin 0) 50 "straddle" <> Raise e.
Proof.
  destruct (american_returns (Fin 100) (Fin 100) (Fin 1) (Fin (5 / 100))
              (Fin (2 / 10)) (Fin 0) 50 "straddle" ltac:(lia)) as [v Hv].
  split; [discriminate|]. split; [discriminate|]. split.
  - now exists v.
  - intros e. rewrite Hv. discriminate.
Qed.



(** C5, as the code has it. Nothing is validated.  The number of steps
    alone decides whether the call fails: with at least one step a value
    is returned whatever the spot, the strike and the maturity; with a
    negative number of steps [option_values[0]] raises [IndexError];
    with no step [T / N] raises [ZeroDivisionError] when it is Python's
    division, and when it is numpy's the payoff of the single terminal
    node is returned. *)
Theorem only_steps_can_make_the_call_fail
        {F : Type} `{Float64 F} (dv : division)
        (S K T r sigma q : F) (N : Z) (option_type : string) :
  match (N ?= 0)%Z with
  | Gt => exists v,
      american_option_binomial_with dv S K T r sigma q N option_type = Ok v
  | Lt => american_option_binomial_with dv S K T r sigma q N option_type
          = Raise IndexError
  | Eq =>
      match dv with
      | PythonDivision =>
          american_option_binomial_with dv S K T r sigma q N option_type
          = Raise ZeroDivisionError
      | NumpyDivision =>
          (exists v,
              american_option_binomial_with dv S K T r sigma q N option_type = Ok v)
          /\ american_option_binomial_with dv S K T r sigma q N option_type
             = let u := up_factor sigma (fdiv T (of_int 0)) in
               index0 (payoff option_type K
                              (terminal_asset_prices S u (down_factor u) 0))
      end
  end.
Proof.
  destruct (Z.compare_spec N 0) as [-> | HN | HN].
  - destruct dv.
    + exact (american_zero_steps S K T r sigma q option_type).
    + split; [apply american_with_numpy_zero_steps_value|].
      apply american_with_numpy_zero_steps.
  - rewrite american_with_nonzero by lia. now apply american_negative_steps.
  - rewrite american_with_nonzero by lia. apply american_returns. lia.
Qed.

(** C5 fails as stated: a negative spot is priced, not refused. *)
Lemma negative_spot_returns_a_price :
  (-100 <= 0)%R
  /\ (exists v : R,
        american_option_binomial (Fin (-100)) (Fin 100) (Fin 1) (Fin (5 / 100))
                                 (Fin (2 / 10)) (Fin 0) 50 "put" = Ok (Fin v))
  /\ forall e : exn,
      american_option_binomial (Fin (-100)) (Fin 100) (Fin 1) (Fin (5 / 100))
                               (Fin (2 / 10)) (Fin 0) 50 "put" <> Raise e.
Proof.
  destruct (american_fin (-100) 100 1 (5 / 100) (2 / 10) 0 50 "put")
    as (a & v & _ & Hv); [lra | lia | lra |].
  split; [lra|]. split.
  - now exists v.
  - intros e. rewrite Hv. discriminate.
Qed.




(** C7. The claim: the call is worth at least [max(spot - strike, 0)].
    What the code computes at [spot = 100], [strike = 10], [maturity = 1],
    [rate = 0.05], [volatility = 0.5], [dividend_yield = 0.5] and one
    step: a call price below [100 - 10], because the exercise value at
    the root is taken at [spot * d / u] instead of [spot].  (The put half
    of the claim holds: [put_price_ge_intrinsic].) *)
Theorem deep_in_the_money_call_below_intrinsic :
  exists v : R,
    american_option_binomial (Fin 100) (Fin 10) (Fin 1) (Fin (5 / 100))
                             (Fin (1 / 2)) (Fin (1 / 2)) 1 "call" = Ok (Fin v)
    /\ (v < Rmax (100 - 10) 0)%R.
Proof.
  destruct (american_fin 100 10 1 (5 / 100) (1 / 2) (1 / 2) 1 "call")
    as (a & v & E & Hv); [lra | lia | lra |].
  exists v. split; [exact Hv|].
  rewrite exact_american_one_step in E. cbv zeta in E.
  injection E as _ <-.
  replace (1 / 1)%R with 1%R by lra.
  assert (Hu : Exact.up (1 / 2) 1 = exp (1 / 2)).
  { unfold Exact.up. rewrite sqrt_1. f_equal. lra. }
  rewrite Hu. clear Hu.
  assert (Hu1 : (1 + 1 / 2 <= exp (1 / 2))%R) by apply exp_ineq1_le.
  set (u := exp (1 / 2)) in *.
  assert (Hd : (Exact.down u * u = 1)%R) by (unfold Exact.down; field; lra).
  assert (Hd0 : (0 < Exact.down u)%R).
  { unfold Exact.down. apply Rdiv_lt_0_compat; lra. }
  set (d := Exact.down u) in *.
  assert (Hx : (d <= exp ((5 / 100 - 1 / 2) * 1) <= 1 / (1 + 45 / 100))%R).
  { replace ((5 / 100 - 1 / 2) * 1)%R with (- (45 / 100))%R by lra.
    rewrite exp_Ropp.
    pose proof (exp_ineq1_le (45 / 100)) as H1.
    assert (H2 : (exp (45 / 100) <= u)%R) by (apply exp_le_compat; lra).
    split.
    - apply Rmult_le_reg_r with u; [lra|]. rewrite Hd.
      apply Rmult_le_reg_l with (exp (45 / 100)); [lra|].
      rewrite <- Rmult_assoc, Rinv_r by lra. lra.
    - unfold Rdiv. rewrite Rmult_1_l. apply Rinv_le_contravar; lra. }
  assert (Hdu : (d < u)%R) by nra.
  pose proof (prob_weights (5 / 100) (1 / 2) 1 u d ltac:(lra)) as Hw.
  pose proof (prob_in_unit (5 / 100) (1 / 2) 1 u d Hdu ltac:(lra)) as Hp.
  set (p := Exact.prob (5 / 100) (1 / 2) 1 u d) in *.
  set (x := exp ((5 / 100 - 1 / 2) * 1)) in *.
  assert (Hdc : (0 < Exact.disc (5 / 100) 1 <= 1)%R).
  { unfold Exact.disc. split; [apply exp_pos | apply exp_neg_le_1; lra]. }
  set (dc := Exact.disc (5 / 100) 1) in *.
  rewrite (Rmax_left (100 - 10) 0) by lra.
  cbn [pow]. rewrite !Rmult_1_r.
  pose proof (call_payoff_le 10 (100 * u) ltac:(lra) ltac:(nra)) as H1.
  pose proof (call_payoff_le 10 (100 * d) ltac:(lra) ltac:(nra)) as H0.
  apply Rmax_lub_lt.
  - set (v1 := Exact.payoff1 "call" 10 (100 * u)) in *.
    set (v0 := Exact.payoff1 "call" 10 (100 * d)) in *.
    assert (Hc : (p * v1 + (1 - p) * v0 <= 100 * x)%R) by nra.
    assert (Hc0 : (0 <= p * v1 + (1 - p) * v0)%R) by nra.
    nra.
  - change (Exact.payoff1 "call" 10 (100 * d / u)) with (Rmax (100 * d / u - 10) 0).
    apply Rmax_lub_lt; [|lra].
    assert (H : (100 * d / u <= 100 * d)%R).
    { apply Rmult_le_reg_r with u; [lra|]. unfold Rdiv.
      rewrite Rmult_assoc, Rinv_l by lra. nra. }
    nra.
Qed.

(** C8. In a call with at least one step, the asset prices and the option
    values start with [N + 1] elements each, every backward step [i],
    from [N - 1] down to [0], leaves [i + 1] elements in each, one fewer
    than it found, and the single value left by step [0] is what the
    call returns. *)
Theorem lattice_sequences_shrink_together
        {F : Type} `{Float64 F}
        (S K T r sigma q : F) (N : Z) (ot : string) :
  (1 <= N)%Z ->
  (forall u d, lattice_sizes (N, initial_lattice S K u d N ot)
               = (N, Z.to_nat (N + 1), Z.to_nat (N + 1)))
  /\ map lattice_sizes (backward_trace S K T r sigma q N ot)
     = map (fun i => (i, Z.to_nat (i + 1), Z.to_nat (i + 1)))
           (py_range_down (N - 1))
  /\ exists tr ap v,
      backward_trace S K T r sigma q N ot = tr ++ [(0%Z, (ap, [v]))]
      /\ american_option_binomial S K T r sigma q N ot = Ok v.
Proof.
  intros HN. split; [|split].
  - intros u d. unfold lattice_sizes. cbn [fst snd].
    destruct (initial_lattice_sizes S K u d N ot) as [-> ->]. reflexivity.
  - now apply backward_trace_sizes.
  - now apply backward_trace_end.
Qed.

Lemma lattice_sequences_shrink_together_witness :
  (1 <= 3)%Z
  /\ map lattice_sizes
         (backward_trace (Fin 100) (Fin 100) (Fin 1) (Fin (5 / 100))
                         (Fin (2 / 10)) (Fin 0) 3 "put")
     = [(2%Z, 3%nat, 3%nat); (1%Z, 2%nat, 2%nat); (0%Z, 1%nat, 1%nat)].
Proof.
  split; [lia|].
  apply (lattice_sequences_shrink_together
           (Fin 100) (Fin 100) (Fin 1) (Fin (5 / 100)) (Fin (2 / 10)) (Fin 0)
           3 "put").
  lia.
Defined.

(** C9. Every kind other than ['call'] is priced exactly as ['put']. *)
Theorem non_call_kind_is_priced_as_put
        {F : Type} `{Float64 F}
        (S K T r sigma q : F) (N : Z) (option_type : string) :
  option_type <> "call"%string ->
  american_option_binomial S K T r sigma q N option_type
  = american_option_binomial S K T r sigma q N "put".
Proof. apply american_not_call. Qed.

Lemma non_call_kind_is_priced_as_put_witness :
  "digital"%string <> "call"%string
  /\ american_option_binomial (Fin 100) (Fin 100) (Fin 1) (Fin (5 / 100))
                              (Fin (2 / 10)) (Fin 0) 50 "digital"
     = american_option_binomial (Fin 100) (Fin 100) (Fin 1) (Fin (5 / 100))
                                (Fin (2 / 10)) (Fin 0) 50 "put".
Proof.
  assert (Hk : "digital"%string <> "call"%string) by discriminate.
  split; [exact Hk|].
  exact (non_call_kind_is_priced_as_put
           (Fin 100) (Fin 100) (Fin 1) (Fin (5 / 100)) (Fin (2 / 10)) (Fin 0)
           50 "digital" Hk).
Defined.

(** C10. The risk-neutral probability is used as computed. With
    [spot = 100], [strike = 90], [maturity = 1], [rate = 0.05],
    [volatility = 0.01], no dividend and one step, it exceeds 1.  Both
    terminal nodes of the call are in the money, and the price returned
    is the discounted sum of their payoffs weighted by [p] and by the
    negative [1 - p]: the down node enters with a negative sign, the
    exercise value is smaller, and so is what [p] clamped to 1 would
    give. *)
Theorem probability_above_one_is_used_as_is :
  exists p v : R,
    risk_neutral_probability (Fin 1) (Fin (5 / 100)) (Fin (1 / 100)) (Fin 0) 1
    = Ok (Fin p)
    /\ (1 < p)%R /\ (1 - p < 0)%R
    /\ american_option_binomial (Fin 100) (Fin 90) (Fin 1) (Fin (5 / 100))
                                (Fin (1 / 100)) (Fin 0) 1 "call" = Ok (Fin v)
    /\ let u := Exact.up (1 / 100) (1 / 1) in
       let d := Exact.down u in
       let discount := Exact.disc (5 / 100) (1 / 1) in
       let value_up := Rmax (100 * u ^ 1 * d ^ 0 - 90) 0 in
       let value_down := Rmax (100 * u ^ 0 * d ^ 1 - 90) 0 in
       let exercise := Rmax (100 * u ^ 0 * d ^ 1 / u - 90) 0 in
       v = ((p * value_up + (1 - p) * value_down) * discount)%R
       /\ (0 < value_down)%R
       /\ ((1 - p) * value_down < 0)%R
       /\ (exercise < v)%R
       /\ ((1 * value_up + 0 * value_down) * discount < v)%R.
Proof.
  destruct (american_fin 100 90 1 (5 / 100) (1 / 100) 0 1 "call")
    as (a & v & E & Hv); [lra | lia | lra |].
  eexists. exists v.
  split; [apply risk_neutral_probability_fin; (lra || lia)|].
  rewrite exact_american_one_step in E. cbv zeta in E.
  injection E as _ <-.
  change (Exact.payoff1 "call" 90) with (fun s : R => Rmax (s - 90) 0).
  cbv beta.
  change (IZR 1) with 1%R.
  pose proof (up_gt_1 (1 / 100) (1 / 1) ltac:(lra) ltac:(lra)) as Hu.
  pose proof (down_lt_1 _ Hu) as Hd.
  assert (Hx : (Exact.up (1 / 100) (1 / 1) < exp ((5 / 100 - 0) * (1 / 1)))%R).
  { unfold Exact.up. apply exp_increasing.
    replace (1 / 1)%R with 1%R by lra. rewrite sqrt_1. lra. }
  assert (Hd' : (99 / 100 <= Exact.down (Exact.up (1 / 100) (1 / 1)))%R).
  { unfold Exact.down, Exact.up.
    replace (1 / 1)%R with 1%R by lra. rewrite sqrt_1, Rmult_1_r.
    replace (1 / exp (1 / 100))%R with (exp (- (1 / 100)))
      by (rewrite exp_Ropp; unfold Rdiv; ring).
    pose proof (exp_ineq1_le (- (1 / 100))) as Hi. lra. }
  assert (Hdc : (0 < Exact.disc (5 / 100) (1 / 1) < 1)%R).
  { unfold Exact.disc. split; [apply exp_pos|].
    apply Rlt_le_trans with (exp 0); [apply exp_increasing; lra|].
    rewrite exp_0. lra. }
  assert (Hxdc : (exp ((5 / 100 - 0) * (1 / 1)) * Exact.disc (5 / 100) (1 / 1) = 1)%R).
  { unfold Exact.disc. rewrite <- exp_plus.
    replace ((5 / 100 - 0) * (1 / 1) + - (5 / 100) * (1 / 1))%R with 0%R by lra.
    apply exp_0. }
  assert (Hpu : (Exact.prob (5 / 100) 0 (1 / 1) (Exact.up (1 / 100) (1 / 1))
                            (Exact.down (Exact.up (1 / 100) (1 / 1)))
                 * (Exact.up (1 / 100) (1 / 1)
                    - Exact.down (Exact.up (1 / 100) (1 / 1)))
                 = exp ((5 / 100 - 0) * (1 / 1))
                   - Exact.down (Exact.up (1 / 100) (1 / 1)))%R).
  { unfold Exact.prob, Rdiv. rewrite Rmult_assoc, Rinv_l by lra. lra. }
  set (u := Exact.up (1 / 100) (1 / 1)) in *.
  set (d := Exact.down u) in *.
  set (x := exp ((5 / 100 - 0) * (1 / 1))) in *.
  set (dc := Exact.disc (5 / 100) (1 / 1)) in *.
  set (p := Exact.prob (5 / 100) 0 (1 / 1) u d) in *.
  assert (Hp : (1 < p)%R) by nra.
  assert (Hud : (d / u < 1)%R).
  { apply Rmult_lt_reg_r with u; [lra|].
    unfold Rdiv. rewrite Rmult_assoc, Rinv_l by lra. lra. }
  assert (Hup : (Rmax (100 * u - 90) 0 = 100 * u - 90)%R)
    by (apply Rmax_left; lra).
  assert (Hdn : (Rmax (100 * d - 90) 0 = 100 * d - 90)%R)
    by (apply Rmax_left; lra).
  assert (Hex : (Rmax (100 * (d / u) - 90) 0 <= 10)%R).
  { apply Rmax_lub; lra. }
  assert (Hc : ((p * (100 * u - 90) + (1 - p) * (100 * d - 90)) * dc
                = 100 - 90 * dc)%R).
  { replace ((p * (100 * u - 90) + (1 - p) * (100 * d - 90)) * dc)%R
      with ((100 * (p * (u - d)) + 100 * d - 90) * dc)%R by ring.
    rewrite Hpu.
    replace ((100 * (x - d) + 100 * d - 90) * dc)%R
      with (100 * (x * dc) - 90 * dc)%R by ring.
    rewrite Hxdc. ring. }
  split; [exact Hp|]. split; [lra|]. split; [exact Hv|].
  cbv zeta. cbn [pow]. fold d.
  replace (100 * (u * 1) * 1)%R with (100 * u)%R by ring.
  replace (100 * 1 * (d * 1) / u)%R with (100 * (d / u))%R
    by (unfold Rdiv; ring).
  replace (100 * 1 * (d * 1))%R with (100 * d)%R by ring.
  rewrite Hup, Hdn, Rmax_left by (rewrite Hc; lra).
  split; [reflexivity|]. split; [lra|]. split; [nra|].
  split; [rewrite Hc; lra|].
  rewrite Hc. nra.
Qed.

(** * Further properties

    What the notebook's two functions do beyond the claims above: bounds
    and monotonicity of the price, its edge cases, and the shape of the
    plotted tree. *)

Section Example.

Local Open Scope R_scope.

(** Four steps of one year each, a rate of 0.05 and a volatility of 0.2:
    the risk-neutral probability lies in [[0, 1]]. *)
Lemma four_year_probability :
  risk_neutral_probability (Fin 4) (Fin (5 / 100)) (Fin (2 / 10)) (Fin 0) 4
  = Ok (Fin (Exact.prob (5 / 100) 0 (4 / 4) (Exact.up (2 / 10) (4 / 4))
                        (Exact.down (Exact.up (2 / 10) (4 / 4)))))
  /\ 0 <= Exact.prob (5 / 100) 0 (4 / 4) (Exact.up (2 / 10) (4 / 4))
                     (Exact.down (Exact.up (2 / 10) (4 / 4))) <= 1.
Proof.
  split.
  - apply risk_neutral_probability_fin; (lra || lia).
  - pose proof (up_gt_1 (2 / 10) (4 / 4) ltac:(lra) ltac:(lra)) as Hu.
    pose proof (down_lt_1 _ Hu) as Hd.
    apply prob_in_unit; [lra|]. split.
    + apply Rle_trans with 1; [lra|].
      rewrite <- exp_0. apply exp_le_compat. lra.
    + unfold Exact.up. apply exp_le_compat.
      replace (4 / 4) with 1 by lra. rewrite sqrt_1. lra.
Qed.

End Example.

Section PlotShape.
Context {F : Type} `{Float64 F}.

Lemma tree_prices_length (S u d : F) (j : Z) :
  List.length (tree_prices S u d j) = Z.to_nat (j + 1).
Proof. unfold tree_prices. now rewrite length_map, py_range_length. Qed.

Lemma plot_binomial_tree_length (S u d : F) (N : Z) :
  List.length (plot_binomial_tree S u d N) = Z.to_nat (N + 1).
Proof. unfold plot_binomial_tree. now rewrite length_map, py_range_length. Qed.

Lemma plot_binomial_tree_nth (S u d : F) (N j : Z) :
  (0 <= j <= N)%Z ->
  nth_error (plot_binomial_tree S u d N) (Z.to_nat j)
  = Some (np_full_like (tree_prices S u d j) j, tree_prices S u d j).
Proof.
  intros Hj. unfold plot_binomial_tree.
  rewrite nth_error_map, nth_error_py_range by lia. reflexivity.
Qed.

Lemma np_full_like_repeat (prices : list F) (j : Z) :
  np_full_like prices j = repeat (of_int j) (List.length prices).
Proof.
  unfold np_full_like. induction prices as [|x l IH]; cbn; [reflexivity|].
  now rewrite IH.
Qed.

Lemma py_range_succ (m : nat) :
  py_range (Z.of_nat m + 1) = py_range (Z.of_nat m) ++ [Z.of_nat m].
Proof.
  unfold py_range. replace (Z.to_nat (Z.of_nat m + 1)) with (S m) by lia.
  rewrite Nat2Z.id, seq_S, map_app. reflexivity.
Qed.

(** The number of points drawn by the calls up to depth [m - 1]. *)
Lemma plot_points_count (S u d : F) (m : nat) :
  (2 * list_sum (map (fun c => List.length (snd c))
                     (plot_binomial_tree S u d (Z.of_nat m - 1))))%nat
  = (m * (m + 1))%nat.
Proof.
  induction m as [|m IH].
  - reflexivity.
  - replace (Z.of_nat (Datatypes.S m) - 1)%Z with (Z.of_nat m - 1 + 1)%Z by lia.
    unfold plot_binomial_tree in *.
    replace (Z.of_nat m - 1 + 1 + 1)%Z with (Z.of_nat m + 1)%Z by lia.
    replace (Z.of_nat m - 1 + 1)%Z with (Z.of_nat m) in IH by lia.
    rewrite py_range_succ, !map_app, list_sum_app. cbn [map list_sum snd].
    rewrite tree_prices_length.
    replace (Z.to_nat (Z.of_nat m + 1)) with (Datatypes.S m) by lia.
    change (list_sum [Datatypes.S m]) with (Datatypes.S m + 0)%nat.
    nia.
Qed.

End PlotShape.

Section NonPositiveMaturity.

Local Open Scope R_scope.

(** [u = 1]: the lattice does not move and [p] is a quotient by zero. *)
Lemma unit_up_factor_nan (S K T r sigma q : R) (N : Z) (ot : string) :
  0 <= T -> (1 <= N)%Z -> Exact.up sigma (T / IZR N) = 1 ->
  american_option_binomial (Fin S) (Fin K) (Fin T) (Fin r) (Fin sigma) (Fin q) N ot
  = Ok NaN.
Proof.
  intros HT HN Hu1.
  assert (Hdt : 0 <= T / IZR N).
  { apply Rmult_le_pos; [assumption|]. left. apply Rinv_0_lt_compat.
    apply IZR_lt. lia. }
  unfold american_option_binomial. rewrite truediv_fin by assumption.
  cbn [bind]. rewrite up_factor_fin by assumption. rewrite Hu1.
  rewrite down_factor_fin by lra.
  replace (Exact.down 1) with 1 by (unfold Exact.down; lra).
  pose proof (risk_neutral_p_degenerate r q (T / IZR N)) as Hp.
  set (p := risk_neutral_p (Fin r) (Fin q) (Fin (T / IZR N)) (Fin 1) (Fin 1)) in *.
  set (dc := discount_factor (Fin r) (Fin (T / IZR N))).
  rewrite initial_lattice_fin.
  pose proof (exact_initial_nonneg S K 1 1 N ot) as Hnn.
  assert (Hlen : List.length (fst (Exact.initial S K 1 1 N ot))
                 = Datatypes.S (Datatypes.S (Z.to_nat (N - 1)))
                 /\ List.length (snd (Exact.initial S K 1 1 N ot))
                    = Datatypes.S (Datatypes.S (Z.to_nat (N - 1)))).
  { unfold Exact.initial. cbn [fst snd].
    rewrite exact_payoff_length, exact_terminal_length. lia. }
  destruct Hlen as [Ha Ho].
  destruct (Exact.initial S K 1 1 N ot) as [ap ov]. cbn [fst snd] in *.
  replace (N - 1)%Z with (Z.of_nat (Z.to_nat (N - 1))) by lia.
  rewrite py_range_down_S. cbn [for_each].
  destruct (backward_step_ok (Fin K) (Fin 1) p dc ot (Z.to_nat (N - 1))
                             (map Fin ap) (map Fin ov))
    as (ap1 & ov1 & E1 & Ha1 & Ho1); [now rewrite length_map..|].
  rewrite E1. cbn [bind].
  apply backward_step_not_finite in E1; [|assumption..].
  destruct (for_each_shape (Fin K) (Fin 1) p dc ot (Z.to_nat (N - 1)) ap1 ov1 Ha1 Ho1)
    as (ap2 & v & E2).
  rewrite E2. cbn [bind snd index0].
  apply for_each_nan in E2; [|assumption]. cbn [snd] in E2.
  inversion E2; subst. reflexivity.
Qed.

(** With [u] NaN every terminal asset price is NaN: one of [u ** j] and
    [d ** (N - j)] has a non-zero exponent. *)
Lemma terminal_nan (S : R) (N : Z) :
  (1 <= N)%Z ->
  Forall (eq NaN) (terminal_asset_prices (Fin S) NaN NaN N).
Proof.
  intros HN. unfold terminal_asset_prices. apply Forall_map, Forall_forall.
  intros j Hj. unfold py_range in Hj. apply in_map_iff in Hj.
  destruct Hj as (k & <- & Hk). apply in_seq in Hk.
  cbn [fpow fmul float_Float64]. unfold Ideal.pow.
  destruct (Z.eqb_spec (Z.of_nat k) 0) as [E0|E0].
  - destruct (Z.eqb_spec (N - Z.of_nat k) 0); [lia|].
    destruct (N - Z.of_nat k <? 0)%Z eqn:E; destruct (0 <? N - Z.of_nat k)%Z;
      reflexivity.
  - destruct (0 <? Z.of_nat k)%Z; reflexivity.
Qed.

Lemma payoff_nan (ot : string) (K : float) (l : list float) :
  Forall (eq NaN) l -> Forall (eq NaN) (payoff ot K l).
Proof.
  intros Hl. unfold payoff.
  destruct (String.eqb ot "call"); apply Forall_map;
    (eapply Forall_impl; [|exact Hl]); intros x <-; [reflexivity|].
  now destruct K.
Qed.

Lemma negative_maturity_nan (S K T r sigma q : R) (N : Z) (ot : string) :
  T < 0 -> (1 <= N)%Z ->
  american_option_binomial (Fin S) (Fin K) (Fin T) (Fin r) (Fin sigma) (Fin q) N ot
  = Ok NaN.
Proof.
  intros HT HN. unfold american_option_binomial.
  rewrite truediv_fin by assumption. cbn [bind].
  assert (Hdt : T / IZR N < 0).
  { unfold Rdiv. rewrite <- (Rmult_0_l (/ IZR N)).
    apply Rmult_lt_compat_r; [|assumption].
    apply Rinv_0_lt_compat, IZR_lt. lia. }
  assert (Hu : up_factor (Fin sigma) (Fin (T / IZR N)) = NaN).
  { unfold up_factor. cbn. destruct (Rlt_dec (T / IZR N) 0); [reflexivity|lra]. }
  rewrite Hu. change (down_factor NaN) with NaN.
  change (risk_neutral_p (Fin r) (Fin q) (Fin (T / IZR N)) NaN NaN) with NaN.
  set (dc := discount_factor (Fin r) (Fin (T / IZR N))).
  destruct (initial_lattice_sizes (Fin S) (Fin K) NaN NaN N ot) as [Ha Ho].
  pose proof (payoff_nan ot (Fin K) _ (terminal_nan S N HN)) as Hnan.
  unfold initial_lattice in *. cbn [fst snd] in Ha, Ho.
  replace (N - 1)%Z with (Z.of_nat (Z.to_nat N) - 1)%Z by lia.
  destruct (for_each_shape (Fin K) NaN NaN dc ot (Z.to_nat N) _ _
              ltac:(rewrite Ha; lia) ltac:(rewrite Ho; lia)) as (ap & v & E).
  rewrite E. cbn [bind snd index0].
  apply for_each_nan in E; [|assumption]. cbn [snd] in E.
  inversion E; subst. reflexivity.
Qed.

Lemma up_zero_maturity (sigma : R) (N : Z) : Exact.up sigma (0 / IZR N) = 1.
Proof.
  unfold Exact.up, Rdiv. now rewrite Rmult_0_l, sqrt_0, Rmult_0_r, exp_0.
Qed.

End NonPositiveMaturity.

(** X1. A maturity that is zero or negative is not refused: with at least
    one step and finite arguments the call returns NaN. *)
Theorem non_positive_maturity_returns_nan
        (S K T r sigma q : R) (N : Z) (option_type : string) :
  (T <= 0)%R -> (1 <= N)%Z ->
  american_option_binomial (Fin S) (Fin K) (Fin T) (Fin r) (Fin sigma) (Fin q)
                           N option_type
  = Ok NaN.
Proof.
  intros [HT | ->] HN.
  - now apply negative_maturity_nan.
  - apply unit_up_factor_nan; [lra | assumption | apply up_zero_maturity].
Qed.

Lemma non_positive_maturity_returns_nan_witness :
  (-1 <= 0)%R /\ (1 <= 50)%Z
  /\ american_option_binomial (Fin 100) (Fin 100) (Fin (-1)) (Fin (5 / 100))
                              (Fin (2 / 10)) (Fin 0) 50 "put" = Ok NaN.
Proof.
  assert (H1 : (-1 <= 0)%R) by lra.
  assert (H2 : (1 <= 50)%Z) by lia.
  split; [exact H1|]. split; [exact H2|].
  exact (non_positive_maturity_returns_nan
           100 100 (-1) (5 / 100) (2 / 10) 0 50 "put" H1 H2).
Defined.

Section Scaling.

Local Open Scope R_scope.
Variables (lam : R).
Hypothesis Hlam : 0 <= lam.

Lemma payoff1_scale (ot : string) (K s : R) :
  Exact.payoff1 ot (lam * K) (lam * s) = lam * Exact.payoff1 ot K s.
Proof.
  unfold Exact.payoff1. destruct (String.eqb ot "call").
  - rewrite <- Rmult_minus_distr_l, <- (Rmult_0_r lam) at 1.
    now apply RmaxRmult.
  - rewrite <- Rmult_minus_distr_l, <- (Rmult_0_r lam) at 1.
    now apply RmaxRmult.
Qed.

Lemma payoff_scale (ot : string) (K : R) (l : list R) :
  Exact.payoff ot (lam * K) (map (Rmult lam) l)
  = map (Rmult lam) (Exact.payoff ot K l).
Proof.
  unfold Exact.payoff. rewrite !map_map. apply map_ext.
  intros s. apply payoff1_scale.
Qed.

Lemma continuation_scale (p dc : R) (l : list R) :
  Exact.continuation p dc (map (Rmult lam) l)
  = map (Rmult lam) (Exact.continuation p dc l).
Proof.
  induction l as [|x l IH]; [reflexivity|].
  destruct l as [|y l]; [reflexivity|].
  cbn [map] in *. rewrite !exact_continuation_cons. cbn [map].
  rewrite IH. f_equal. ring.
Qed.

Lemma zip_with_Rmax_scale (a : list R) : forall b,
  zip_with Rmax (map (Rmult lam) a) (map (Rmult lam) b)
  = map (Rmult lam) (zip_with Rmax a b).
Proof.
  induction a as [|x a IH]; intros [|y b]; cbn; try reflexivity.
  rewrite IH. f_equal. now apply RmaxRmult.
Qed.

Lemma step_scale (K u p dc : R) (ot : string) (st : list R * list R) (i : Z) :
  Exact.step (lam * K) u p dc ot
             (map (Rmult lam) (fst st), map (Rmult lam) (snd st)) i
  = (map (Rmult lam) (fst (Exact.step K u p dc ot st i)),
     map (Rmult lam) (snd (Exact.step K u p dc ot st i))).
Proof.
  unfold Exact.step. cbn [fst snd].
  rewrite slice_to_map, continuation_scale.
  assert (E : map (fun s => s / u) (map (Rmult lam) (slice_to (i + 1) (fst st)))
              = map (Rmult lam) (map (fun s => s / u) (slice_to (i + 1) (fst st)))).
  { rewrite !map_map. apply map_ext. intros s. unfold Rdiv. ring. }
  rewrite E, payoff_scale, zip_with_Rmax_scale. reflexivity.
Qed.

Lemma fold_scale (K u p dc : R) (ot : string) (l : list Z) :
  forall st,
    fold_left (Exact.step (lam * K) u p dc ot) l
              (map (Rmult lam) (fst st), map (Rmult lam) (snd st))
    = (map (Rmult lam) (fst (fold_left (Exact.step K u p dc ot) l st)),
       map (Rmult lam) (snd (fold_left (Exact.step K u p dc ot) l st))).
Proof.
  induction l as [|i l IH]; intros st; cbn [fold_left].
  - reflexivity.
  - rewrite step_scale. apply IH.
Qed.

Lemma terminal_scale (S u d : R) (N : Z) :
  Exact.terminal (lam * S) u d N = map (Rmult lam) (Exact.terminal S u d N).
Proof.
  unfold Exact.terminal. rewrite map_map. apply map_ext. intros j. ring.
Qed.

Lemma exact_american_scale (S K T r sigma q : R) (N : Z) (ot : string) :
  Exact.american (lam * S) (lam * K) T r sigma q N ot
  = (map (Rmult lam) (fst (Exact.american S K T r sigma q N ot)),
     map (Rmult lam) (snd (Exact.american S K T r sigma q N ot))).
Proof.
  unfold Exact.american. cbv zeta. rewrite <- fold_scale.
  unfold Exact.initial. cbn [fst snd].
  now rewrite terminal_scale, payoff_scale.
Qed.

End Scaling.

(** X2. The price is homogeneous of degree one in spot and strike: scaling
    both by [lam >= 0] scales the price by [lam]. *)
Theorem price_scales_with_spot_and_strike
        (S K T r sigma q lam : R) (N : Z) (option_type : string) :
  (0 < T)%R -> (1 <= N)%Z -> (0 < sigma)%R -> (0 <= lam)%R ->
  exists v : R,
    american_option_binomial (Fin S) (Fin K) (Fin T) (Fin r) (Fin sigma) (Fin q)
                             N option_type = Ok (Fin v)
    /\ american_option_binomial (Fin (lam * S)) (Fin (lam * K)) (Fin T) (Fin r)
                                (Fin sigma) (Fin q) N option_type
       = Ok (Fin (lam * v)).
Proof.
  intros HT HN Hs Hlam.
  destruct (american_fin S K T r sigma q N option_type HT HN Hs)
    as (a & v & E & Hv).
  destruct (american_fin (lam * S) (lam * K) T r sigma q N option_type HT HN Hs)
    as (a' & v' & E' & Hv').
  exists v. split; [exact Hv|].
  rewrite (exact_american_scale lam Hlam), E in E'. cbn [fst snd map] in E'.
  injection E' as _ <-. exact Hv'.
Qed.

Lemma price_scales_with_spot_and_strike_witness :
  (0 < 1)%R /\ (1 <= 50)%Z /\ (0 < 2 / 10)%R /\ (0 <= 3)%R
  /\ exists v : R,
      american_option_binomial (Fin 100) (Fin 100) (Fin 1) (Fin (5 / 100))
                               (Fin (2 / 10)) (Fin 0) 50 "put" = Ok (Fin v)
      /\ american_option_binomial (Fin (3 * 100)) (Fin (3 * 100)) (Fin 1)
                                  (Fin (5 / 100)) (Fin (2 / 10)) (Fin 0) 50 "put"
         = Ok (Fin (3 * v)).
Proof.
  assert (H1 : (0 < 1)%R) by lra.
  assert (H2 : (1 <= 50)%Z) by lia.
  assert (H3 : (0 < 2 / 10)%R) by lra.
  assert (H4 : (0 <= 3)%R) by lra.
  repeat (split; [assumption|]).
  exact (price_scales_with_spot_and_strike
           100 100 1 (5 / 100) (2 / 10) 0 3 50 "put" H1 H2 H3 H4).
Defined.

Section Comparison.

Local Open Scope R_scope.

Lemma Forall2_firstn {A B : Type} (Rel : A -> B -> Prop) (n : nat) :
  forall a b, Forall2 Rel a b -> Forall2 Rel (firstn n a) (firstn n b).
Proof.
  induction n as [|n IH]; intros a b Hab; cbn.
  - constructor.
  - destruct Hab; constructor; auto.
Qed.

Lemma Forall2_same_length {A B : Type} (Rel : A -> B -> Prop)
      (a : list A) (b : list B) :
  Forall2 Rel a b -> List.length a = List.length b.
Proof. induction 1; cbn; congruence. Qed.

Lemma Forall2_slice_to {A B : Type} (Rel : A -> B -> Prop) (k : Z)
      (a : list A) (b : list B) :
  Forall2 Rel a b -> Forall2 Rel (slice_to k a) (slice_to k b).
Proof.
  intros Hab. unfold slice_to. rewrite (Forall2_same_length Rel a b Hab).
  destruct (k <? 0)%Z; now apply Forall2_firstn.
Qed.

Lemma Forall2_map {A B A' B' : Type}
      (Rel : A -> B -> Prop) (Rel' : A' -> B' -> Prop)
      (f : A -> A') (g : B -> B') :
  (forall x y, Rel x y -> Rel' (f x) (g y)) ->
  forall a b, Forall2 Rel a b -> Forall2 Rel' (map f a) (map g b).
Proof. intros Hfg a b Hab. induction Hab; cbn; constructor; auto. Qed.

Lemma zip_with_Rmax_mono (c1 : list R) : forall c2 e1 e2,
  Forall2 Rle c1 c2 -> Forall2 Rle e1 e2 ->
  Forall2 Rle (zip_with Rmax c1 e1) (zip_with Rmax c2 e2).
Proof.
  induction c1 as [|x c1 IH]; intros c2 e1 e2 Hc He.
  - inversion Hc; subst. constructor.
  - inversion Hc; subst. destruct He as [|a b e1 e2 Hab He]; cbn; constructor.
    + apply Rmax_lub.
      * apply Rle_trans with y; [assumption | apply Rmax_l].
      * apply Rle_trans with b; [assumption | apply Rmax_r].
    + now apply IH.
Qed.

(** Two lattices, one below the other, stay so through the backward
    induction, as long as the weights [p] and [1 - p] are not negative.
    The asset prices are related by [Rel], which division by [u] keeps
    and which orders the two exercise values. *)
Lemma exact_fold_mono (K1 K2 u p dc : R) (ot : string) (Rel : R -> R -> Prop) :
  0 <= p <= 1 -> 0 <= dc ->
  (forall a b, Rel a b -> Rel (a / u) (b / u)) ->
  (forall a b, Rel a b -> Exact.payoff1 ot K1 a <= Exact.payoff1 ot K2 b) ->
  forall (l : list Z) st1 st2,
    Forall2 Rel (fst st1) (fst st2) -> Forall2 Rle (snd st1) (snd st2) ->
    Forall2 Rle (snd (fold_left (Exact.step K1 u p dc ot) l st1))
                (snd (fold_left (Exact.step K2 u p dc ot) l st2)).
Proof.
  intros Hp Hdc Hdiv Hpay. induction l as [|i l IH]; intros st1 st2 Ha Ho.
  - exact Ho.
  - cbn [fold_left]. apply IH; unfold Exact.step; cbn [fst snd].
    + apply Forall2_map with Rel; [exact Hdiv|]. now apply Forall2_slice_to.
    + apply zip_with_Rmax_mono.
      * now apply exact_continuation_mono.
      * unfold Exact.payoff. apply Forall2_map with Rel; [exact Hpay|].
        apply Forall2_map with Rel; [exact Hdiv|]. now apply Forall2_slice_to.
Qed.

Lemma Forall2_eq_refl {A : Type} (l : list A) : Forall2 eq l l.
Proof. induction l; constructor; auto. Qed.

Lemma call_payoff_strike (K1 K2 s : R) :
  K1 <= K2 -> Exact.payoff1 "call" K2 s <= Exact.payoff1 "call" K1 s.
Proof.
  intros HK. change (Rmax (s - K2) 0 <= Rmax (s - K1) 0).
  apply Rmax_lub; [|apply Rmax_r].
  apply Rle_trans with (s - K1); [lra | apply Rmax_l].
Qed.

Lemma put_payoff_strike (K1 K2 s : R) :
  K1 <= K2 -> Exact.payoff1 "put" K1 s <= Exact.payoff1 "put" K2 s.
Proof.
  intros HK. change (Rmax (K1 - s) 0 <= Rmax (K2 - s) 0).
  apply Rmax_lub; [|apply Rmax_r].
  apply Rle_trans with (K2 - s); [lra | apply Rmax_l].
Qed.

Lemma call_payoff_spot (K s1 s2 : R) :
  s1 <= s2 -> Exact.payoff1 "call" K s1 <= Exact.payoff1 "call" K s2.
Proof.
  intros Hs. change (Rmax (s1 - K) 0 <= Rmax (s2 - K) 0).
  apply Rmax_lub; [|apply Rmax_r].
  apply Rle_trans with (s2 - K); [lra | apply Rmax_l].
Qed.

Lemma put_payoff_spot (K s1 s2 : R) :
  s1 <= s2 -> Exact.payoff1 "put" K s2 <= Exact.payoff1 "put" K s1.
Proof.
  intros Hs. change (Rmax (K - s2) 0 <= Rmax (K - s1) 0).
  apply Rmax_lub; [|apply Rmax_r].
  apply Rle_trans with (K - s1); [lra | apply Rmax_l].
Qed.

Lemma div_le_compat (u a b : R) : 0 < u -> a <= b -> a / u <= b / u.
Proof.
  intros Hu Hab. unfold Rdiv. apply Rmult_le_compat_r; [|assumption].
  left. now apply Rinv_0_lt_compat.
Qed.

Lemma terminal_spot_mono (S1 S2 u d : R) (N : Z) :
  0 < u -> 0 < d -> S1 <= S2 ->
  Forall2 Rle (Exact.terminal S1 u d N) (Exact.terminal S2 u d N).
Proof.
  intros Hu Hd HS. unfold Exact.terminal.
  apply Forall2_map with eq; [|apply Forall2_eq_refl].
  intros j ? <-.
  assert (0 < u ^ Z.to_nat j) by now apply pow_lt.
  assert (0 < d ^ Z.to_nat (N - j)) by now apply pow_lt.
  apply Rmult_le_compat_r; [lra|]. apply Rmult_le_compat_r; lra.
Qed.

End Comparison.

Section Monotone.

Local Open Scope R_scope.

(** The comparison of two calls that differ in spot and strike only. *)
Lemma american_mono (S1 S2 K1 K2 T r sigma q : R) (N : Z) (ot : string)
      (Rel : R -> R -> Prop) (p : R) :
  0 < T -> (1 <= N)%Z -> 0 < sigma ->
  risk_neutral_probability (Fin T) (Fin r) (Fin sigma) (Fin q) N = Ok (Fin p) ->
  0 <= p <= 1 ->
  (forall a b u, 0 < u -> Rel a b -> Rel (a / u) (b / u)) ->
  (forall a b, Rel a b -> Exact.payoff1 ot K1 a <= Exact.payoff1 ot K2 b) ->
  (forall u d, 0 < u -> 0 < d ->
               Forall2 Rel (Exact.terminal S1 u d N) (Exact.terminal S2 u d N)) ->
  exists v1 v2 : R,
    american_option_binomial (Fin S1) (Fin K1) (Fin T) (Fin r) (Fin sigma) (Fin q)
                             N ot = Ok (Fin v1)
    /\ american_option_binomial (Fin S2) (Fin K2) (Fin T) (Fin r) (Fin sigma) (Fin q)
                                N ot = Ok (Fin v2)
    /\ v1 <= v2.
Proof.
  intros HT HN Hs Hprob Hp Hdiv Hpay Hterm.
  rewrite risk_neutral_probability_fin in Hprob by assumption.
  injection Hprob as Hprob.
  destruct (american_fin S1 K1 T r sigma q N ot HT HN Hs) as (a1 & v1 & E1 & Hv1).
  destruct (american_fin S2 K2 T r sigma q N ot HT HN Hs) as (a2 & v2 & E2 & Hv2).
  exists v1, v2. split; [exact Hv1|]. split; [exact Hv2|].
  pose proof (dt_pos T N HT HN) as Hdt.
  pose proof (up_gt_1 sigma (T / IZR N) Hs Hdt) as Hu.
  pose proof (down_lt_1 _ Hu) as Hd.
  unfold Exact.american in E1, E2. cbv zeta in E1, E2. rewrite Hprob in E1, E2.
  set (u := Exact.up sigma (T / IZR N)) in *.
  set (d := Exact.down u) in *.
  set (dc := Exact.disc r (T / IZR N)) in *.
  assert (Hle : Forall2 Rle
                  (snd (fold_left (Exact.step K1 u p dc ot) (py_range_down (N - 1))
                                  (Exact.initial S1 K1 u d N ot)))
                  (snd (fold_left (Exact.step K2 u p dc ot) (py_range_down (N - 1))
                                  (Exact.initial S2 K2 u d N ot)))).
  { apply exact_fold_mono with Rel; try assumption.
    - left. apply exp_pos.
    - intros a b Hab. apply Hdiv; [lra | assumption].
    - unfold Exact.initial. cbn [fst]. apply Hterm; lra.
    - unfold Exact.initial, Exact.payoff. cbn [snd].
      apply Forall2_map with Rel; [exact Hpay|]. apply Hterm; lra. }
  rewrite E1, E2 in Hle. cbn [snd] in Hle. now inversion Hle.
Qed.

End Monotone.

(** X3. With a risk-neutral probability in [[0, 1]], a higher strike
    lowers the call price and raises the put price (or leaves them). *)
Theorem price_monotone_in_strike
        (S K1 K2 T r sigma q p : R) (N : Z) :
  (0 < T)%R -> (1 <= N)%Z -> (0 < sigma)%R ->
  risk_neutral_probability (Fin T) (Fin r) (Fin sigma) (Fin q) N = Ok (Fin p) ->
  (0 <= p <= 1)%R ->
  (K1 <= K2)%R ->
  exists c1 c2 p1 p2 : R,
    american_option_binomial (Fin S) (Fin K1) (Fin T) (Fin r) (Fin sigma) (Fin q)
                             N "call" = Ok (Fin c1)
    /\ american_option_binomial (Fin S) (Fin K2) (Fin T) (Fin r) (Fin sigma) (Fin q)
                                N "call" = Ok (Fin c2)
    /\ american_option_binomial (Fin S) (Fin K1) (Fin T) (Fin r) (Fin sigma) (Fin q)
                                N "put" = Ok (Fin p1)
    /\ american_option_binomial (Fin S) (Fin K2) (Fin T) (Fin r) (Fin sigma) (Fin q)
                                N "put" = Ok (Fin p2)
    /\ (c2 <= c1)%R /\ (p1 <= p2)%R.
Proof.
  intros HT HN Hs Hprob Hp HK.
  destruct (american_mono S S K2 K1 T r sigma q N "call" eq p HT HN Hs Hprob Hp)
    as (c2 & c1 & Hc2 & Hc1 & Hc).
  { now intros a b u _ <-. }
  { intros a b <-. now apply call_payoff_strike. }
  { intros u d _ _. apply Forall2_eq_refl. }
  destruct (american_mono S S K1 K2 T r sigma q N "put" eq p HT HN Hs Hprob Hp)
    as (p1 & p2 & Hp1 & Hp2 & Hpp).
  { now intros a b u _ <-. }
  { intros a b <-. now apply put_payoff_strike. }
  { intros u d _ _. apply Forall2_eq_refl. }
  exists c1, c2, p1, p2. auto 10.
Qed.

Lemma price_monotone_in_strike_witness :
  (0 < 4)%R /\ (1 <= 4)%Z /\ (0 < 2 / 10)%R
  /\ risk_neutral_probability (Fin 4) (Fin (5 / 100)) (Fin (2 / 10)) (Fin 0) 4
     = Ok (Fin (Exact.prob (5 / 100) 0 (4 / 4) (Exact.up (2 / 10) (4 / 4))
                           (Exact.down (Exact.up (2 / 10) (4 / 4)))))
  /\ (0 <= Exact.prob (5 / 100) 0 (4 / 4) (Exact.up (2 / 10) (4 / 4))
                      (Exact.down (Exact.up (2 / 10) (4 / 4))) <= 1)%R
  /\ (90 <= 110)%R
  /\ exists c1 c2 p1 p2 : R,
      american_option_binomial (Fin 100) (Fin 90) (Fin 4) (Fin (5 / 100))
                               (Fin (2 / 10)) (Fin 0) 4 "call" = Ok (Fin c1)
      /\ american_option_binomial (Fin 100) (Fin 110) (Fin 4) (Fin (5 / 100))
                                  (Fin (2 / 10)) (Fin 0) 4 "call" = Ok (Fin c2)
      /\ american_option_binomial (Fin 100) (Fin 90) (Fin 4) (Fin (5 / 100))
                                  (Fin (2 / 10)) (Fin 0) 4 "put" = Ok (Fin p1)
      /\ american_option_binomial (Fin 100) (Fin 110) (Fin 4) (Fin (5 / 100))
                                  (Fin (2 / 10)) (Fin 0) 4 "put" = Ok (Fin p2)
      /\ (c2 <= c1)%R /\ (p1 <= p2)%R.
Proof.
  assert (H1 : (0 < 4)%R) by lra.
  assert (H2 : (1 <= 4)%Z) by lia.
  assert (H3 : (0 < 2 / 10)%R) by lra.
  destruct four_year_probability as [H4 H5].
  assert (H6 : (90 <= 110)%R) by lra.
  repeat (split; [assumption|]).
  exact (price_monotone_in_strike 100 90 110 4 (5 / 100) (2 / 10) 0 _ 4
                                  H1 H2 H3 H4 H5 H6).
Defined.

(** X4. With a risk-neutral probability in [[0, 1]], a higher spot raises
    the call price and lowers the put price (or leaves them). *)
Theorem price_monotone_in_spot
        (S1 S2 K T r sigma q p : R) (N : Z) :
  (0 < T)%R -> (1 <= N)%Z -> (0 < sigma)%R ->
  risk_neutral_probability (Fin T) (Fin r) (Fin sigma) (Fin q) N = Ok (Fin p) ->
  (0 <= p <= 1)%R ->
  (S1 <= S2)%R ->
  exists c1 c2 p1 p2 : R,
    american_option_binomial (Fin S1) (Fin K) (Fin T) (Fin r) (Fin sigma) (Fin q)
                             N "call" = Ok (Fin c1)
    /\ american_option_binomial (Fin S2) (Fin K) (Fin T) (Fin r) (Fin sigma) (Fin q)
                                N "call" = Ok (Fin c2)
    /\ american_option_binomial (Fin S1) (Fin K) (Fin T) (Fin r) (Fin sigma) (Fin q)
                                N "put" = Ok (Fin p1)
    /\ american_option_binomial (Fin S2) (Fin K) (Fin T) (Fin r) (Fin sigma) (Fin q)
                                N "put" = Ok (Fin p2)
    /\ (c1 <= c2)%R /\ (p2 <= p1)%R.
Proof.
  intros HT HN Hs Hprob Hp HS.
  destruct (american_mono S1 S2 K K T r sigma q N "call" Rle p HT HN Hs Hprob Hp)
    as (c1 & c2 & Hc1 & Hc2 & Hc).
  { intros a b u Hu Hab. now apply div_le_compat. }
  { intros a b Hab. now apply call_payoff_spot. }
  { intros u d Hu Hd. now apply terminal_spot_mono. }
  destruct (american_mono S2 S1 K K T r sigma q N "put" (fun a b => (b <= a)%R) p
                          HT HN Hs Hprob Hp)
    as (p2 & p1 & Hp2 & Hp1 & Hpp).
  { intros a b u Hu Hab. now apply div_le_compat. }
  { intros a b Hab. now apply put_payoff_spot. }
  { intros u d Hu Hd.
    assert (H := terminal_spot_mono S1 S2 u d N Hu Hd HS).
    clear -H. induction H; constructor; auto. }
  exists c1, c2, p1, p2. auto 10.
Qed.

Lemma price_monotone_in_spot_witness :
  (0 < 4)%R /\ (1 <= 4)%Z /\ (0 < 2 / 10)%R
  /\ risk_neutral_probability (Fin 4) (Fin (5 / 100)) (Fin (2 / 10)) (Fin 0) 4
     = Ok (Fin (Exact.prob (5 / 100) 0 (4 / 4) (Exact.up (2 / 10) (4 / 4))
                           (Exact.down (Exact.up (2 / 10) (4 / 4)))))
  /\ (0 <= Exact.prob (5 / 100) 0 (4 / 4) (Exact.up (2 / 10) (4 / 4))
                      (Exact.down (Exact.up (2 / 10) (4 / 4))) <= 1)%R
  /\ (90 <= 110)%R
  /\ exists c1 c2 p1 p2 : R,
      american_option_binomial (Fin 90) (Fin 100) (Fin 4) (Fin (5 / 100))
                               (Fin (2 / 10)) (Fin 0) 4 "call" = Ok (Fin c1)
      /\ american_option_binomial (Fin 110) (Fin 100) (Fin 4) (Fin (5 / 100))
                                  (Fin (2 / 10)) (Fin 0) 4 "call" = Ok (Fin c2)
      /\ american_option_binomial (Fin 90) (Fin 100) (Fin 4) (Fin (5 / 100))
                                  (Fin (2 / 10)) (Fin 0) 4 "put" = Ok (Fin p1)
      /\ american_option_binomial (Fin 110) (Fin 100) (Fin 4) (Fin (5 / 100))
                                  (Fin (2 / 10)) (Fin 0) 4 "put" = Ok (Fin p2)
      /\ (c1 <= c2)%R /\ (p2 <= p1)%R.
Proof.
  assert (H1 : (0 < 4)%R) by lra.
  assert (H2 : (1 <= 4)%Z) by lia.
  assert (H3 : (0 < 2 / 10)%R) by lra.
  destruct four_year_probability as [H4 H5].
  assert (H6 : (90 <= 110)%R) by lra.
  repeat (split; [assumption|]).
  exact (price_monotone_in_spot 90 110 100 4 (5 / 100) (2 / 10) 0 _ 4
                                H1 H2 H3 H4 H5 H6).
Defined.

Section PutCeiling.

Local Open Scope R_scope.

Lemma continuation_bounded (p dc B : R) :
  0 <= p <= 1 -> 0 <= dc <= 1 -> 0 <= B ->
  forall l, Forall (fun v => 0 <= v <= B) l ->
            Forall (fun v => 0 <= v <= B) (Exact.continuation p dc l).
Proof.
  intros Hp Hdc HB l Hl. induction Hl as [|x l Hx Hl IH].
  - constructor.
  - destruct Hl as [|y l Hy Hl].
    + constructor.
    + rewrite exact_continuation_cons. constructor; [|exact IH].
      assert (H0 : 0 <= p * y + (1 - p) * x) by nra.
      assert (H1 : p * y + (1 - p) * x <= B) by nra.
      split; nra.
Qed.

Lemma put_payoff_bounded (K s : R) :
  0 <= K -> 0 <= s -> 0 <= Exact.payoff1 "put" K s <= K.
Proof.
  intros HK Hs. change (0 <= Rmax (K - s) 0 <= K). split.
  - apply Rmax_r.
  - apply Rmax_lub; lra.
Qed.

Lemma zip_with_Rmax_bounded (B : R) (c : list R) : forall e,
  Forall (fun v => 0 <= v <= B) c -> Forall (fun v => 0 <= v <= B) e ->
  Forall (fun v => 0 <= v <= B) (zip_with Rmax c e).
Proof.
  induction c as [|x c IH]; intros e Hc He; cbn; [constructor|].
  destruct e as [|y e]; [constructor|].
  inversion Hc; subst. inversion He; subst. constructor.
  - split.
    + apply Rle_trans with x; [lra | apply Rmax_l].
    + apply Rmax_lub; lra.
  - now apply IH.
Qed.

Lemma Forall_slice_to_map_div (u : R) (k : Z) (l : list R) :
  0 < u -> Forall (Rle 0) l ->
  Forall (Rle 0) (map (fun s => s / u) (slice_to k l)).
Proof.
  intros Hu Hl. apply Forall_map.
  eapply Forall_impl; [|apply Forall_slice_to; exact Hl].
  intros s Hs. cbv beta. apply Rmult_le_pos; [assumption|].
  left. now apply Rinv_0_lt_compat.
Qed.

Lemma exact_fold_put_bounded (K u p dc : R) :
  0 <= K -> 0 < u -> 0 <= p <= 1 -> 0 <= dc <= 1 ->
  forall (l : list Z) st,
    Forall (Rle 0) (fst st) -> Forall (fun v => 0 <= v <= K) (snd st) ->
    Forall (fun v => 0 <= v <= K)
           (snd (fold_left (Exact.step K u p dc "put") l st)).
Proof.
  intros HK Hu Hp Hdc. induction l as [|i l IH]; intros st Ha Ho; cbn [fold_left].
  - exact Ho.
  - apply IH; unfold Exact.step; cbn [fst snd].
    + now apply Forall_slice_to_map_div.
    + apply zip_with_Rmax_bounded.
      * now apply continuation_bounded.
      * unfold Exact.payoff. apply Forall_map.
        eapply Forall_impl; [|apply Forall_slice_to_map_div; eassumption].
        intros s Hs. now apply put_payoff_bounded.
Qed.

Lemma terminal_nonneg (S u d : R) (N : Z) :
  0 <= S -> 0 < u -> 0 < d -> Forall (Rle 0) (Exact.terminal S u d N).
Proof.
  intros HS Hu Hd. unfold Exact.terminal. apply Forall_map, Forall_forall.
  intros j _.
  assert (0 < u ^ Z.to_nat j) by now apply pow_lt.
  assert (0 < d ^ Z.to_nat (N - j)) by now apply pow_lt.
  apply Rmult_le_pos; [apply Rmult_le_pos|]; lra.
Qed.

End PutCeiling.

(** X5. With a spot and a strike that are not negative, a rate that is not
    negative and a risk-neutral probability in [[0, 1]], the put price
    lies between 0 and the strike. *)
Theorem put_price_at_most_strike
        (S K T r sigma q p : R) (N : Z) :
  (0 <= S)%R -> (0 <= K)%R -> (0 < T)%R -> (1 <= N)%Z -> (0 < sigma)%R ->
  (0 <= r)%R ->
  risk_neutral_probability (Fin T) (Fin r) (Fin sigma) (Fin q) N = Ok (Fin p) ->
  (0 <= p <= 1)%R ->
  exists v : R,
    american_option_binomial (Fin S) (Fin K) (Fin T) (Fin r) (Fin sigma) (Fin q)
                             N "put" = Ok (Fin v)
    /\ (0 <= v <= K)%R.
Proof.
  intros HS HK HT HN Hs Hr Hprob Hp.
  rewrite risk_neutral_probability_fin in Hprob by assumption.
  injection Hprob as Hprob.
  destruct (american_fin S K T r sigma q N "put" HT HN Hs) as (a & v & E & Hv).
  exists v. split; [exact Hv|].
  pose proof (dt_pos T N HT HN) as Hdt.
  pose proof (up_gt_1 sigma (T / IZR N) Hs Hdt) as Hu.
  pose proof (down_lt_1 _ Hu) as Hd.
  unfold Exact.american in E. cbv zeta in E. rewrite Hprob in E.
  set (u := Exact.up sigma (T / IZR N)) in *.
  set (d := Exact.down u) in *.
  assert (Hdc : (0 <= Exact.disc r (T / IZR N) <= 1)%R).
  { unfold Exact.disc. split; [left; apply exp_pos|].
    apply exp_neg_le_1. nra. }
  pose proof (terminal_nonneg S u d N HS ltac:(lra) ltac:(lra)) as Hterm.
  pose proof (exact_fold_put_bounded K u p (Exact.disc r (T / IZR N))
                HK ltac:(lra) Hp Hdc (py_range_down (N - 1))
                (Exact.initial S K u d N "put")) as Hb.
  rewrite E in Hb. cbn [snd] in Hb.
  assert (Hv' : Forall (fun v => (0 <= v <= K)%R) [v]).
  { apply Hb; unfold Exact.initial; cbn [fst snd]; [exact Hterm|].
    unfold Exact.payoff. apply Forall_map.
    eapply Forall_impl; [|exact Hterm].
    intros s Hs0. now apply put_payoff_bounded. }
  now inversion Hv'.
Qed.

Lemma put_price_at_most_strike_witness :
  (0 <= 100)%R /\ (0 <= 100)%R /\ (0 < 4)%R /\ (1 <= 4)%Z /\ (0 < 2 / 10)%R
  /\ (0 <= 5 / 100)%R
  /\ risk_neutral_probability (Fin 4) (Fin (5 / 100)) (Fin (2 / 10)) (Fin 0) 4
     = Ok (Fin (Exact.prob (5 / 100) 0 (4 / 4) (Exact.up (2 / 10) (4 / 4))
                           (Exact.down (Exact.up (2 / 10) (4 / 4)))))
  /\ (0 <= Exact.prob (5 / 100) 0 (4 / 4) (Exact.up (2 / 10) (4 / 4))
                      (Exact.down (Exact.up (2 / 10) (4 / 4))) <= 1)%R
  /\ exists v : R,
      american_option_binomial (Fin 100) (Fin 100) (Fin 4) (Fin (5 / 100))
                               (Fin (2 / 10)) (Fin 0) 4 "put" = Ok (Fin v)
      /\ (0 <= v <= 100)%R.
Proof.
  assert (H1 : (0 <= 100)%R) by lra.
  assert (H2 : (0 < 4)%R) by lra.
  assert (H3 : (1 <= 4)%Z) by lia.
  assert (H4 : (0 < 2 / 10)%R) by lra.
  assert (H5 : (0 <= 5 / 100)%R) by lra.
  destruct four_year_probability as [H6 H7].
  repeat (split; [assumption|]).
  exact (put_price_at_most_strike 100 100 4 (5 / 100) (2 / 10) 0 _ 4
                                  H1 H1 H2 H3 H4 H5 H6 H7).
Defined.

Section CallCeiling.

Local Open Scope R_scope.
Variables (S u d : R).

(** The lattice of [m + 1] steps, without its lowest node, is the lattice
    of [m] steps moved up once; without its highest node, moved down. *)
Lemma terminal_tail (m : nat) :
  slice_from1 (Exact.terminal S u d (Z.of_nat m + 1))
  = map (fun x => x * u) (Exact.terminal S u d (Z.of_nat m)).
Proof.
  unfold Exact.terminal, slice_from1, py_range.
  replace (Z.to_nat (Z.of_nat m + 1 + 1)) with (Datatypes.S (Datatypes.S m)) by lia.
  replace (Z.to_nat (Z.of_nat m + 1)) with (Datatypes.S m) by lia.
  rewrite !skipn_map, skipn_seq.
  replace (Datatypes.S (Datatypes.S m) - 1)%nat with (Datatypes.S m) by lia.
  change (0 + 1)%nat with 1%nat. rewrite <- seq_shift, !map_map.
  apply map_ext_in. intros k Hk. apply in_seq in Hk.
  replace (Z.to_nat (Z.of_nat (Datatypes.S k))) with (Datatypes.S (Z.to_nat (Z.of_nat k)))
    by lia.
  replace (Z.of_nat m + 1 - Z.of_nat (Datatypes.S k))%Z with (Z.of_nat m - Z.of_nat k)%Z
    by lia.
  cbn [pow]. ring.
Qed.

Lemma terminal_init (m : nat) :
  firstn (Datatypes.S m) (Exact.terminal S u d (Z.of_nat m + 1))
  = map (fun x => x * d) (Exact.terminal S u d (Z.of_nat m)).
Proof.
  unfold Exact.terminal. rewrite firstn_map, firstn_py_range by lia.
  replace (Z.of_nat (Datatypes.S m)) with (Z.of_nat m + 1)%Z by lia.
  rewrite map_map. apply map_ext_in. intros j Hj.
  unfold py_range in Hj. apply in_map_iff in Hj.
  destruct Hj as (k & <- & Hk). apply in_seq in Hk.
  replace (Z.to_nat (Z.of_nat m + 1 - Z.of_nat k))
    with (Datatypes.S (Z.to_nat (Z.of_nat m - Z.of_nat k))) by lia.
  cbn [pow]. ring.
Qed.

Lemma terminal_length_nat (m : nat) :
  List.length (Exact.terminal S u d (Z.of_nat m)) = Datatypes.S m.
Proof. rewrite exact_terminal_length. lia. Qed.

Lemma zip_with_map_same {A B C D : Type} (f : B -> C -> D) (g : A -> B) (h : A -> C)
      (l : list A) :
  zip_with f (map g l) (map h l) = map (fun x => f (g x) (h x)) l.
Proof. induction l as [|x l IH]; cbn; [reflexivity|]. now rewrite IH. Qed.

(** One step of expectation on the lattice itself: every node is
    multiplied by [(p * u + (1 - p) * d) * discount]. *)
Lemma continuation_terminal (p dc : R) (m : nat) :
  Exact.continuation p dc (Exact.terminal S u d (Z.of_nat m + 1))
  = map (fun x => x * ((p * u + (1 - p) * d) * dc))
        (Exact.terminal S u d (Z.of_nat m)).
Proof.
  unfold Exact.continuation. rewrite terminal_tail.
  unfold slice_to. cbn [Z.ltb Z.compare Z.opp].
  rewrite exact_terminal_length.
  replace (Z.to_nat (Z.of_nat m + 1 + 1) - Z.to_nat 1)%nat with (Datatypes.S m) by lia.
  rewrite terminal_init, !map_map, zip_with_map_same, map_map.
  apply map_ext. intros x. ring.
Qed.

End CallCeiling.

Section CallCeilingFold.

Local Open Scope R_scope.

Lemma Forall2_Rle_trans (a b c : list R) :
  Forall2 Rle a b -> Forall2 Rle b c -> Forall2 Rle a c.
Proof.
  intros Hab. revert c. induction Hab; intros c Hbc; inversion Hbc; subst;
    constructor; [lra | auto].
Qed.

Lemma Forall2_Rle_shrink (g : R) (t : list R) :
  0 <= g <= 1 -> Forall (Rle 0) t -> Forall2 Rle (map (fun x => x * g) t) t.
Proof.
  intros Hg Ht. induction Ht; cbn; constructor; [nra | assumption].
Qed.

Lemma zip_with_Rmax_lub (t : list R) : forall c e,
  Forall2 Rle c t -> Forall2 Rle e t -> Forall2 Rle (zip_with Rmax c e) t.
Proof.
  induction t as [|x t IH]; intros c e Hc He; inversion Hc; subst;
    inversion He; subst; cbn; constructor.
  - now apply Rmax_lub.
  - now apply IH.
Qed.

Lemma call_payoff_below (K : R) (ap t : list R) :
  0 <= K -> Forall (Rle 0) t -> Forall2 Rle ap t ->
  Forall2 Rle (Exact.payoff "call" K ap) t.
Proof.
  intros HK Ht Hap. unfold Exact.payoff.
  induction Hap as [|a x ap t Hax Hap IH]; cbn; constructor.
  - inversion Ht; subst. change (Rmax (a - K) 0 <= x). apply Rmax_lub; lra.
  - apply IH. now inversion Ht.
Qed.

(** With weights in [[0, 1]] and a growth [(p*u + (1-p)*d) * discount] of
    at most 1, asset prices and call values stay below the lattice. *)
Lemma exact_fold_call_below_lattice (S K u d p dc : R) :
  0 <= S -> 0 <= K -> 0 < d -> d <= u -> 0 <= p <= 1 -> 0 <= dc ->
  (p * u + (1 - p) * d) * dc <= 1 ->
  forall (m : nat) st,
    Forall2 Rle (fst st) (Exact.terminal S u d (Z.of_nat m)) ->
    Forall2 Rle (snd st) (Exact.terminal S u d (Z.of_nat m)) ->
    Forall2 Rle (snd (fold_left (Exact.step K u p dc "call")
                                (py_range_down (Z.of_nat m - 1)) st))
                (Exact.terminal S u d 0).
Proof.
  intros HS HK Hd Hdu Hp Hdc Hg.
  assert (Hu : 0 < u) by lra.
  induction m as [|m IH]; intros st Ha Ho.
  - rewrite py_range_down_neg by lia. exact Ho.
  - replace (Z.of_nat (Datatypes.S m) - 1)%Z with (Z.of_nat m) by lia.
    rewrite py_range_down_S. cbn [fold_left].
    replace (Z.of_nat (Datatypes.S m)) with (Z.of_nat m + 1)%Z in Ha, Ho by lia.
    pose proof (terminal_nonneg S u d (Z.of_nat m) HS Hu Hd) as Hpos.
    assert (Ha' : Forall2 Rle
                    (map (fun s => s / u) (slice_to (Z.of_nat m + 1) (fst st)))
                    (Exact.terminal S u d (Z.of_nat m))).
    { apply Forall2_Rle_trans
        with (map (fun x => x * (d / u)) (Exact.terminal S u d (Z.of_nat m))).
      - pose proof (Forall2_slice_to Rle (Z.of_nat m + 1) _ _ Ha) as H1.
        unfold slice_to at 2 in H1.
        destruct (Z.ltb_spec (Z.of_nat m + 1) 0); [lia|].
        replace (Z.to_nat (Z.of_nat m + 1)) with (Datatypes.S m) in H1 by lia.
        rewrite terminal_init in H1.
        apply (Forall2_map Rle Rle (fun s => s / u) (fun s => s / u)) in H1.
        + rewrite map_map in H1.
          erewrite (map_ext (fun x => x * d / u)) in H1; [exact H1|].
          intros x. cbv beta. unfold Rdiv. ring.
        + intros a b Hab. now apply div_le_compat.
      - apply Forall2_Rle_shrink; [|exact Hpos]. split.
        + apply Rmult_le_pos; [lra|]. left. now apply Rinv_0_lt_compat.
        + apply Rmult_le_reg_r with u; [assumption|].
          unfold Rdiv. rewrite Rmult_assoc, Rinv_l by lra. lra. }
    apply IH; unfold Exact.step; cbn [fst snd]; [exact Ha'|].
    apply zip_with_Rmax_lub.
    + apply Forall2_Rle_trans
        with (Exact.continuation p dc (Exact.terminal S u d (Z.of_nat m + 1))).
      * now apply exact_continuation_mono.
      * rewrite continuation_terminal. apply Forall2_Rle_shrink; [|exact Hpos].
        split; [|exact Hg].
        apply Rmult_le_pos; [|assumption]. nra.
    + now apply call_payoff_below.
Qed.

Lemma growth_at_most_1 (r q dt u d : R) :
  u - d <> 0 -> 0 <= q -> 0 <= dt ->
  (Exact.prob r q dt u d * u + (1 - Exact.prob r q dt u d) * d) * Exact.disc r dt <= 1.
Proof.
  intros Hud Hq Hdt. rewrite prob_weights by assumption.
  unfold Exact.disc. rewrite <- exp_plus. apply exp_neg_le_1. nra.
Qed.

End CallCeilingFold.

(** X6. With a spot and a strike that are not negative, a dividend yield
    that is not negative and a risk-neutral probability in [[0, 1]], the
    call price lies between 0 and the spot. *)
Theorem call_price_at_most_spot
        (S K T r sigma q p : R) (N : Z) :
  (0 <= S)%R -> (0 <= K)%R -> (0 < T)%R -> (1 <= N)%Z -> (0 < sigma)%R ->
  (0 <= q)%R ->
  risk_neutral_probability (Fin T) (Fin r) (Fin sigma) (Fin q) N = Ok (Fin p) ->
  (0 <= p <= 1)%R ->
  exists v : R,
    american_option_binomial (Fin S) (Fin K) (Fin T) (Fin r) (Fin sigma) (Fin q)
                             N "call" = Ok (Fin v)
    /\ (0 <= v <= S)%R.
Proof.
  intros HS HK HT HN Hs Hq Hprob Hp.
  rewrite risk_neutral_probability_fin in Hprob by assumption.
  injection Hprob as Hprob.
  destruct (american_fin S K T r sigma q N "call" HT HN Hs) as (a & v & E & Hv).
  exists v. split; [exact Hv|].
  pose proof (dt_pos T N HT HN) as Hdt.
  pose proof (up_gt_1 sigma (T / IZR N) Hs Hdt) as Hu.
  pose proof (down_lt_1 _ Hu) as Hd.
  unfold Exact.american in E. cbv zeta in E.
  pose proof (growth_at_most_1 r q (T / IZR N) (Exact.up sigma (T / IZR N))
                (Exact.down (Exact.up sigma (T / IZR N)))
                ltac:(lra) Hq ltac:(lra)) as Hg.
  rewrite Hprob in E, Hg.
  set (u := Exact.up sigma (T / IZR N)) in *.
  set (d := Exact.down u) in *.
  set (dc := Exact.disc r (T / IZR N)) in *.
  pose proof (terminal_nonneg S u d N HS ltac:(lra) ltac:(lra)) as Hterm.
  split.
  - pose proof (exact_fold_nonneg K u p dc "call" (py_range_down (N - 1)) _
                  (exact_initial_nonneg S K u d N "call")) as Hnn.
    rewrite E in Hnn. cbn [snd] in Hnn. now inversion Hnn.
  - pose proof (exact_fold_call_below_lattice S K u d p dc HS HK
                  ltac:(lra) ltac:(lra) Hp ltac:(left; apply exp_pos) Hg
                  (Z.to_nat N) (Exact.initial S K u d N "call")) as Hb.
    replace (Z.of_nat (Z.to_nat N)) with N in Hb by lia.
    rewrite E in Hb. cbn [snd] in Hb.
    assert (Hv' : Forall2 Rle [v] (Exact.terminal S u d 0)).
    { apply Hb; unfold Exact.initial; cbn [fst snd].
      - apply Forall2_Rle_refl.
      - apply call_payoff_below; [assumption | exact Hterm | apply Forall2_Rle_refl]. }
    unfold Exact.terminal in Hv'. cbn in Hv'. inversion Hv'; subst. lra.
Qed.

Lemma call_price_at_most_spot_witness :
  (0 <= 100)%R /\ (0 <= 100)%R /\ (0 < 4)%R /\ (1 <= 4)%Z /\ (0 < 2 / 10)%R
  /\ (0 <= 0)%R
  /\ risk_neutral_probability (Fin 4) (Fin (5 / 100)) (Fin (2 / 10)) (Fin 0) 4
     = Ok (Fin (Exact.prob (5 / 100) 0 (4 / 4) (Exact.up (2 / 10) (4 / 4))
                           (Exact.down (Exact.up (2 / 10) (4 / 4)))))
  /\ (0 <= Exact.prob (5 / 100) 0 (4 / 4) (Exact.up (2 / 10) (4 / 4))
                      (Exact.down (Exact.up (2 / 10) (4 / 4))) <= 1)%R
  /\ exists v : R,
      american_option_binomial (Fin 100) (Fin 100) (Fin 4) (Fin (5 / 100))
                               (Fin (2 / 10)) (Fin 0) 4 "call" = Ok (Fin v)
      /\ (0 <= v <= 100)%R.
Proof.
  assert (H1 : (0 <= 100)%R) by lra.
  assert (H2 : (0 < 4)%R) by lra.
  assert (H3 : (1 <= 4)%Z) by lia.
  assert (H4 : (0 < 2 / 10)%R) by lra.
  assert (H5 : (0 <= 0)%R) by lra.
  destruct four_year_probability as [H6 H7].
  repeat (split; [assumption|]).
  exact (call_price_at_most_spot 100 100 4 (5 / 100) (2 / 10) 0 _ 4
                                 H1 H1 H2 H3 H4 H5 H6 H7).
Defined.

Section EarlyExercise.

Local Open Scope R_scope.
Variables (K u p dc : R) (ot : string).

Lemma zip_with_Rmax_ge_payoff (ap : list R) : forall c,
  List.length c = List.length ap ->
  Forall2 (fun s v => Exact.payoff1 ot K s <= v /\ 0 <= v)
          ap (zip_with Rmax c (Exact.payoff ot K ap)).
Proof.
  unfold Exact.payoff.
  induction ap as [|s ap IH]; intros [|x c] Hl; try discriminate; cbn; constructor.
  - split; [apply Rmax_r|].
    apply Rle_trans with (Exact.payoff1 ot K s); [apply payoff1_nonneg | apply Rmax_r].
  - apply IH. cbn in Hl. lia.
Qed.

(** After a step every node is worth its exercise value or more. *)
Lemma exact_step_ge_exercise (m : nat) (ap ov : list R) :
  List.length ap = Datatypes.S (Datatypes.S m) ->
  List.length ov = Datatypes.S (Datatypes.S m) ->
  Forall2 (fun s v => Exact.payoff1 ot K s <= v /\ 0 <= v)
          (fst (Exact.step K u p dc ot (ap, ov) (Z.of_nat m)))
          (snd (Exact.step K u p dc ot (ap, ov) (Z.of_nat m))).
Proof.
  intros Ha Ho.
  destruct (exact_step_lengths K u p dc ot m ap ov Ha Ho) as [Ha1 _].
  unfold Exact.step in *. cbn [fst snd] in *.
  apply zip_with_Rmax_ge_payoff.
  rewrite exact_continuation_length, Ha1. lia.
Qed.

Lemma loop_trace_ge_exercise (m : nat) : forall ap ov,
  u <> 0 -> List.length ap = Datatypes.S m -> List.length ov = Datatypes.S m ->
  forall i a o,
    In (i, (a, o))
       (loop_trace (backward_step (Fin K) (Fin u) (Fin p) (Fin dc) ot)
                   (py_range_down (Z.of_nat m - 1)) (map Fin ap, map Fin ov)) ->
    exists a' o',
      a = map Fin a' /\ o = map Fin o'
      /\ Forall2 (fun s v => Exact.payoff1 ot K s <= v /\ 0 <= v) a' o'.
Proof.
  induction m as [|m IH]; intros ap ov Hu Ha Ho i a o Hin.
  - rewrite py_range_down_neg in Hin by lia. contradiction.
  - replace (Z.of_nat (Datatypes.S m) - 1)%Z with (Z.of_nat m) in Hin by lia.
    rewrite py_range_down_S in Hin. cbn [loop_trace] in Hin.
    rewrite backward_step_fin in Hin by assumption.
    destruct (exact_step_lengths K u p dc ot m ap ov Ha Ho) as [Ha1 Ho1].
    pose proof (exact_step_ge_exercise m ap ov Ha Ho) as Hge.
    destruct (Exact.step K u p dc ot (ap, ov) (Z.of_nat m)) as [ap1 ov1].
    cbn [fst snd] in *.
    destruct Hin as [[= <- <- <-] | Hin].
    + now exists ap1, ov1.
    + exact (IH ap1 ov1 Hu Ha1 Ho1 i a o Hin).
Qed.

End EarlyExercise.

(** X7. On valid parameters, at every step of the backward induction every
    node keeps a finite value that is not negative and not below the
    exercise value at the asset price the step computed for that node. *)
Theorem every_node_is_worth_its_exercise_value
        (S K T r sigma q : R) (N : Z) (option_type : string) :
  (0 < T)%R -> (1 <= N)%Z -> (0 < sigma)%R ->
  map fst (backward_trace (Fin S) (Fin K) (Fin T) (Fin r) (Fin sigma) (Fin q)
                          N option_type)
  = py_range_down (N - 1)
  /\ forall i asset_prices option_values,
      In (i, (asset_prices, option_values))
         (backward_trace (Fin S) (Fin K) (Fin T) (Fin r) (Fin sigma) (Fin q)
                         N option_type) ->
      Forall2 (fun s v =>
                 exists x y : R,
                   s = Fin x /\ v = Fin y /\ (0 <= y)%R
                   /\ (Exact.payoff1 option_type K x <= y)%R)
              asset_prices option_values.
Proof.
  intros HT HN Hs. split; [now apply backward_trace_steps|].
  intros i a o Hin.
  pose proof (dt_pos T N HT HN) as Hdt.
  pose proof (up_gt_1 sigma (T / IZR N) Hs Hdt) as Hu.
  pose proof (down_lt_1 _ Hu) as Hd.
  unfold backward_trace in Hin. rewrite truediv_fin in Hin by assumption.
  rewrite up_factor_fin in Hin by lra.
  rewrite down_factor_fin in Hin by lra.
  rewrite risk_neutral_p_fin in Hin by lra.
  rewrite discount_factor_fin, initial_lattice_fin in Hin.
  replace (N - 1)%Z with (Z.of_nat (Z.to_nat N) - 1)%Z in Hin by lia.
  apply loop_trace_ge_exercise in Hin.
  - destruct Hin as (a' & o' & -> & -> & Hge).
    clear -Hge. induction Hge as [|s v a' o' [H1 H2] Hge IH]; cbn; constructor.
    + exists s, v. repeat split; assumption.
    + exact IH.
  - lra.
  - unfold Exact.initial. cbn [fst]. rewrite exact_terminal_length. lia.
  - unfold Exact.initial. cbn [snd].
    rewrite exact_payoff_length, exact_terminal_length. lia.
Qed.

Lemma every_node_is_worth_its_exercise_value_witness :
  (0 < 1)%R /\ (1 <= 50)%Z /\ (0 < 2 / 10)%R
  /\ map fst (backward_trace (Fin 100) (Fin 100) (Fin 1) (Fin (5 / 100))
                             (Fin (2 / 10)) (Fin 0) 50 "put")
     = py_range_down (50 - 1)
  /\ forall i asset_prices option_values,
      In (i, (asset_prices, option_values))
         (backward_trace (Fin 100) (Fin 100) (Fin 1) (Fin (5 / 100))
                         (Fin (2 / 10)) (Fin 0) 50 "put") ->
      Forall2 (fun s v =>
                 exists x y : R,
                   s = Fin x /\ v = Fin y /\ (0 <= y)%R
                   /\ (Exact.payoff1 "put" 100 x <= y)%R)
              asset_prices option_values.
Proof.
  assert (H1 : (0 < 1)%R) by lra.
  assert (H2 : (1 <= 50)%Z) by lia.
  assert (H3 : (0 < 2 / 10)%R) by lra.
  repeat (split; [assumption|]).
  exact (every_node_is_worth_its_exercise_value
           100 100 1 (5 / 100) (2 / 10) 0 50 "put" H1 H2 H3).
Defined.

Section RootFloor.

Local Open Scope R_scope.

(** The price is at least the exercise value at the asset price the last
    step leaves at the root. *)
Lemma root_value_ge_exercise (S K T r sigma q : R) (N : Z) (ot : string) :
  0 < T -> (1 <= N)%Z -> 0 < sigma ->
  exists v : R,
    american_option_binomial (Fin S) (Fin K) (Fin T) (Fin r) (Fin sigma) (Fin q)
                             N ot = Ok (Fin v)
    /\ Exact.payoff1 ot K
         (S * Exact.down (Exact.up sigma (T / IZR N)) ^ Z.to_nat N
          / Exact.up sigma (T / IZR N) ^ Z.to_nat N) <= v.
Proof.
  intros HT HN Hs.
  destruct (american_fin S K T r sigma q N ot HT HN Hs) as (a & v & E & Hv).
  exists v. split; [exact Hv|].
  pose proof (dt_pos T N HT HN) as Hdt.
  pose proof (up_gt_1 sigma (T / IZR N) Hs Hdt) as Hu.
  unfold Exact.american in E. cbv zeta in E.
  set (u := Exact.up sigma (T / IZR N)) in *.
  set (d := Exact.down u) in *.
  set (p := Exact.prob r q (T / IZR N) u d) in *.
  set (dc := Exact.disc r (T / IZR N)) in *.
  assert (Ha : a = S * d ^ Z.to_nat N / u ^ Z.to_nat N).
  { unfold Exact.initial, Exact.terminal in E.
    replace (N + 1)%Z with (Z.of_nat (Datatypes.S (Z.to_nat N))) in E by lia.
    unfold py_range in E. rewrite Nat2Z.id in E. cbn [seq map] in E.
    replace (N - 1)%Z with (Z.of_nat (Z.to_nat N) - 1)%Z in E by lia.
    match type of E with
    | fold_left _ _ (?a0 :: ?rest, ?ov) = _ =>
        destruct (exact_fold_head K u p dc ot (Z.to_nat N) a0 rest ov
                    ltac:(lra)) as (rest' & Eh)
    end.
    rewrite E in Eh. cbn [fst] in Eh. injection Eh as -> _.
    cbn [Z.of_nat Z.to_nat pow]. rewrite Z.sub_0_r. field.
    apply pow_nonzero. lra. }
  replace (N - 1)%Z with (Z.of_nat (Z.to_nat N - 1)) in E by lia.
  apply exact_fold_root in E. now rewrite <- Ha.
Qed.

End RootFloor.

(** X8. On valid parameters with a positive spot the put price is at
    least the exercise value at [S * d^N / u^N], the asset price the
    loop ends with at the root, and so at least [max(K - S, 0)]. *)
Theorem put_price_at_least_intrinsic
        (S K T r sigma q : R) (N : Z) :
  (0 < S)%R -> (0 < T)%R -> (1 <= N)%Z -> (0 < sigma)%R ->
  let u := Exact.up sigma (T / IZR N) in
  let d := Exact.down u in
  exists v : R,
    american_option_binomial (Fin S) (Fin K) (Fin T) (Fin r) (Fin sigma) (Fin q)
                             N "put" = Ok (Fin v)
    /\ (Rmax (K - S * d ^ Z.to_nat N / u ^ Z.to_nat N) 0 <= v)%R
    /\ (Rmax (K - S) 0 <= v)%R.
Proof.
  intros HS HT HN Hs u d.
  destruct (root_value_ge_exercise S K T r sigma q N "put" HT HN Hs)
    as (v & Hv & Hge).
  fold u in Hge. fold d in Hge.
  change (Rmax (K - S * d ^ Z.to_nat N / u ^ Z.to_nat N) 0 <= v)%R in Hge.
  exists v. split; [exact Hv|]. split; [exact Hge|].
  pose proof (dt_pos T N HT HN) as Hdt.
  pose proof (up_gt_1 sigma (T / IZR N) Hs Hdt) as Hu. fold u in Hu.
  pose proof (down_lt_1 _ Hu) as Hd. fold d in Hd.
  pose proof (pow_ratio_lt_1 u d (Z.to_nat N) Hu Hd ltac:(lia)) as Hr.
  apply Rle_trans with (Rmax (K - S * d ^ Z.to_nat N / u ^ Z.to_nat N) 0);
    [|exact Hge].
  apply Rmax_lub; [|apply Rmax_r].
  apply Rle_trans with (K - S * d ^ Z.to_nat N / u ^ Z.to_nat N)%R; [|apply Rmax_l].
  replace (S * d ^ Z.to_nat N / u ^ Z.to_nat N)%R
    with (S * (d ^ Z.to_nat N / u ^ Z.to_nat N))%R by (unfold Rdiv; ring).
  nra.
Qed.

Lemma put_price_at_least_intrinsic_witness :
  (0 < 100)%R /\ (0 < 1)%R /\ (1 <= 50)%Z /\ (0 < 2 / 10)%R
  /\ exists v : R,
      american_option_binomial (Fin 100) (Fin 110) (Fin 1) (Fin (5 / 100))
                               (Fin (2 / 10)) (Fin 0) 50 "put" = Ok (Fin v)
      /\ (Rmax (110 - 100 * Exact.down (Exact.up (2 / 10) (1 / 50)) ^ Z.to_nat 50
                      / Exact.up (2 / 10) (1 / 50) ^ Z.to_nat 50) 0 <= v)%R
      /\ (Rmax (110 - 100) 0 <= v)%R.
Proof.
  assert (H1 : (0 < 100)%R) by lra.
  assert (H2 : (0 < 1)%R) by lra.
  assert (H3 : (1 <= 50)%Z) by lia.
  assert (H4 : (0 < 2 / 10)%R) by lra.
  repeat (split; [assumption|]).
  exact (put_price_at_least_intrinsic 100 110 1 (5 / 100) (2 / 10) 0 50 H1 H2 H3 H4).
Defined.

(** X9. [plot_binomial_tree] makes one scatter call per depth [0..N], none
    when [N] is negative; the call for depth [j] draws [j + 1] points, all
    at abscissa [j]. *)
Theorem plot_draws_one_column_per_depth
        {F : Type} `{Float64 F} (S u d : F) (N : Z) :
  List.length (plot_binomial_tree S u d N) = Z.to_nat (N + 1)
  /\ forall j : Z,
      (0 <= j <= N)%Z ->
      exists x_coords prices,
        nth_error (plot_binomial_tree S u d N) (Z.to_nat j) = Some (x_coords, prices)
        /\ List.length prices = Z.to_nat (j + 1)
        /\ x_coords = repeat (of_int j) (Z.to_nat (j + 1)).
Proof.
  split.
  - apply plot_binomial_tree_length.
  - intros j Hj. do 2 eexists. split; [now apply plot_binomial_tree_nth|].
    split; [apply tree_prices_length|].
    now rewrite np_full_like_repeat, tree_prices_length.
Qed.

Lemma plot_draws_one_column_per_depth_witness :
  (0 <= 3 <= 5)%Z
  /\ exists x_coords prices,
      nth_error (plot_binomial_tree (Fin 100) (Fin 2) (Fin (1 / 2)) 5) (Z.to_nat 3)
      = Some (x_coords, prices)
      /\ List.length prices = Z.to_nat (3 + 1)
      /\ x_coords = repeat (of_int 3) (Z.to_nat (3 + 1)).
Proof.
  assert (H1 : (0 <= 3 <= 5)%Z) by lia.
  split; [exact H1|].
  exact (proj2 (plot_draws_one_column_per_depth (Fin 100) (Fin 2) (Fin (1 / 2)) 5)
               3%Z H1).
Defined.

(** X10. For [N >= 0] the plot has [(N + 1) * (N + 2) / 2] points in all. *)
Theorem plot_draws_triangular_number_of_points
        {F : Type} `{Float64 F} (S u d : F) (N : Z) :
  (0 <= N)%Z ->
  (2 * list_sum (map (fun call => List.length (snd call))
                     (plot_binomial_tree S u d N)))%nat
  = (Z.to_nat (N + 1) * Z.to_nat (N + 2))%nat.
Proof.
  intros HN.
  pose proof (plot_points_count S u d (Z.to_nat (N + 1))) as E.
  replace (Z.of_nat (Z.to_nat (N + 1)) - 1)%Z with N in E by lia.
  rewrite E. f_equal. lia.
Qed.

Lemma plot_draws_triangular_number_of_points_witness :
  (0 <= 5)%Z
  /\ (2 * list_sum (map (fun call => List.length (snd call))
                        (plot_binomial_tree (Fin 100) (Fin 2) (Fin (1 / 2)) 5)))%nat
     = 42%nat.
Proof.
  assert (H1 : (0 <= 5)%Z) by lia.
  split; [exact H1|].
  exact (plot_draws_triangular_number_of_points (Fin 100) (Fin 2) (Fin (1 / 2)) 5 H1).
Defined.

Section PlotPrices.

Local Open Scope R_scope.

Lemma tree_prices_fin (S u d : R) (j : Z) :
  tree_prices (Fin S) (Fin u) (Fin d) j = map Fin (Exact.terminal S u d j).
Proof.
  unfold tree_prices, Exact.terminal. rewrite map_map.
  apply map_ext_in. intros k Hk. unfold py_range in Hk.
  apply in_map_iff in Hk. destruct Hk as (n & <- & Hn). apply in_seq in Hn.
  rewrite !pow_fin by lia. reflexivity.
Qed.

(** The price drawn at depth [j] for [k] up moves. *)
Lemma plot_price_at (S u d : R) (N j k : Z) :
  (0 <= k <= j)%Z -> (j <= N)%Z ->
  exists x_coords prices,
    nth_error (plot_binomial_tree (Fin S) (Fin u) (Fin d) N) (Z.to_nat j)
    = Some (x_coords, prices)
    /\ nth_error prices (Z.to_nat k)
       = Some (Fin (S * u ^ Z.to_nat k * d ^ Z.to_nat (j - k))).
Proof.
  intros Hk Hj. do 2 eexists. split; [apply plot_binomial_tree_nth; lia|].
  rewrite tree_prices_fin. unfold Exact.terminal.
  rewrite !nth_error_map, nth_error_py_range by lia. reflexivity.
Qed.

End PlotPrices.

(** X11. When [u * d = 1], as for the factors the notebook passes, the
    plotted tree recombines: an up move followed by a down move leads
    back to the same price, so the point for [k] up moves at depth [j]
    is drawn again for [k + 1] up moves at depth [j + 2] (in exact
    arithmetic). *)
Theorem plotted_tree_recombines (S u d : R) (N j k : Z) :
  (u * d = 1)%R -> (0 <= k <= j)%Z -> (j + 2 <= N)%Z ->
  exists x1 prices1 x2 prices2 y,
    nth_error (plot_binomial_tree (Fin S) (Fin u) (Fin d) N) (Z.to_nat j)
    = Some (x1, prices1)
    /\ nth_error (plot_binomial_tree (Fin S) (Fin u) (Fin d) N) (Z.to_nat (j + 2))
       = Some (x2, prices2)
    /\ nth_error prices1 (Z.to_nat k) = Some (Fin y)
    /\ nth_error prices2 (Z.to_nat (k + 1)) = Some (Fin y).
Proof.
  intros Hud Hk Hj.
  destruct (plot_price_at S u d N j k Hk ltac:(lia)) as (x1 & p1 & E1 & Ek1).
  destruct (plot_price_at S u d N (j + 2) (k + 1) ltac:(lia) ltac:(lia))
    as (x2 & p2 & E2 & Ek2).
  exists x1, p1, x2, p2. eexists.
  split; [exact E1|]. split; [exact E2|]. split; [exact Ek1|].
  rewrite Ek2. do 2 f_equal.
  replace (Z.to_nat (k + 1)) with (Datatypes.S (Z.to_nat k)) by lia.
  replace (Z.to_nat (j + 2 - (k + 1))) with (Datatypes.S (Z.to_nat (j - k))) by lia.
  cbn [pow].
  replace (S * (u * u ^ Z.to_nat k) * (d * d ^ Z.to_nat (j - k)))%R
    with (S * u ^ Z.to_nat k * d ^ Z.to_nat (j - k) * (u * d))%R by ring.
  rewrite Hud. ring.
Qed.

Lemma plotted_tree_recombines_witness :
  (2 * (1 / 2) = 1)%R /\ (0 <= 1 <= 2)%Z /\ (2 + 2 <= 5)%Z
  /\ exists x1 prices1 x2 prices2 y,
      nth_error (plot_binomial_tree (Fin 100) (Fin 2) (Fin (1 / 2)) 5) (Z.to_nat 2)
      = Some (x1, prices1)
      /\ nth_error (plot_binomial_tree (Fin 100) (Fin 2) (Fin (1 / 2)) 5)
                   (Z.to_nat (2 + 2))
         = Some (x2, prices2)
      /\ nth_error prices1 (Z.to_nat 1) = Some (Fin y)
      /\ nth_error prices2 (Z.to_nat (1 + 1)) = Some (Fin y).
Proof.
  assert (H1 : (2 * (1 / 2) = 1)%R) by lra.
  assert (H2 : (0 <= 1 <= 2)%Z) by lia.
  assert (H3 : (2 + 2 <= 5)%Z) by lia.
  repeat (split; [assumption|]).
  exact (plotted_tree_recombines 100 2 (1 / 2) 5 2 1 H1 H2 H3).
Defined.

(** X12. For a positive spot and [0 < d < u], the prices drawn at one depth
    increase strictly with the number of up moves (in exact
    arithmetic). *)
Theorem plotted_prices_increase_within_a_depth (S u d : R) (N j k : Z) :
  (0 < S)%R -> (0 < d < u)%R -> (0 <= k)%Z -> (k + 1 <= j)%Z -> (j <= N)%Z ->
  exists x_coords prices a b,
    nth_error (plot_binomial_tree (Fin S) (Fin u) (Fin d) N) (Z.to_nat j)
    = Some (x_coords, prices)
    /\ nth_error prices (Z.to_nat k) = Some (Fin a)
    /\ nth_error prices (Z.to_nat (k + 1)) = Some (Fin b)
    /\ (a < b)%R.
Proof.
  intros HS Hdu Hk Hkj Hj.
  destruct (plot_price_at S u d N j k ltac:(lia) Hj) as (x1 & p1 & E1 & Ek1).
  destruct (plot_price_at S u d N j (k + 1) ltac:(lia) Hj) as (x2 & p2 & E2 & Ek2).
  rewrite E1 in E2. injection E2 as <- <-.
  exists x1, p1. do 2 eexists.
  split; [exact E1|]. split; [exact Ek1|]. split; [exact Ek2|].
  replace (Z.to_nat (k + 1)) with (Datatypes.S (Z.to_nat k)) by lia.
  replace (Z.to_nat (j - k)) with (Datatypes.S (Z.to_nat (j - (k + 1)))) by lia.
  cbn [pow].
  assert (Hu : (0 < u ^ Z.to_nat k)%R) by (apply pow_lt; lra).
  assert (Hd : (0 < d ^ Z.to_nat (j - (k + 1)))%R) by (apply pow_lt; lra).
  assert (Hc : (0 < S * u ^ Z.to_nat k * d ^ Z.to_nat (j - (k + 1)))%R)
    by (repeat apply Rmult_lt_0_compat; assumption).
  nra.
Qed.

Lemma plotted_prices_increase_within_a_depth_witness :
  (0 < 100)%R /\ (0 < 1 / 2 < 2)%R /\ (0 <= 1)%Z /\ (1 + 1 <= 3)%Z /\ (3 <= 5)%Z
  /\ exists x_coords prices a b,
      nth_error (plot_binomial_tree (Fin 100) (Fin 2) (Fin (1 / 2)) 5) (Z.to_nat 3)
      = Some (x_coords, prices)
      /\ nth_error prices (Z.to_nat 1) = Some (Fin a)
      /\ nth_error prices (Z.to_nat (1 + 1)) = Some (Fin b)
      /\ (a < b)%R.
Proof.
  assert (H1 : (0 < 100)%R) by lra.
  assert (H2 : (0 < 1 / 2 < 2)%R) by lra.
  assert (H3 : (0 <= 1)%Z) by lia.
  assert (H4 : (1 + 1 <= 3)%Z) by lia.
  assert (H5 : (3 <= 5)%Z) by lia.
  repeat (split; [assumption|]).
  exact (plotted_prices_increase_within_a_depth 100 2 (1 / 2) 5 3 1 H1 H2 H3 H4 H5).
Defined.

Section ZeroSpot.

Local Open Scope R_scope.

Lemma continuation_constant (p dc c : R) (l : list R) :
  Forall (eq c) l -> Forall (eq (c * dc)) (Exact.continuation p dc l).
Proof.
  intros Hl. induction Hl as [|x l Hx Hl IH].
  - constructor.
  - destruct Hl as [|y l Hy Hl].
    + constructor.
    + rewrite exact_continuation_cons. constructor; [|exact IH].
      subst x y. ring.
Qed.

Lemma zip_with_Rmax_constant (a b : R) (c : list R) : forall e,
  Forall (eq a) c -> Forall (eq b) e -> Forall (eq (Rmax a b)) (zip_with Rmax c e).
Proof.
  induction c as [|x c IH]; intros e Hc He; cbn; [constructor|].
  destruct e as [|y e]; [constructor|].
  inversion Hc; subst. inversion He; subst. constructor; [reflexivity|].
  now apply IH.
Qed.

(** With every asset price 0 and every value [c], a step leaves every
    asset price 0 and every value [max(c * discount, payoff(0))]. *)
Lemma exact_step_zero_spot (K u p dc c : R) (ot : string) (st : list R * list R) (i : Z) :
  Forall (eq 0) (fst st) -> Forall (eq c) (snd st) ->
  Forall (eq 0) (fst (Exact.step K u p dc ot st i))
  /\ Forall (eq (Rmax (c * dc) (Exact.payoff1 ot K 0)))
            (snd (Exact.step K u p dc ot st i)).
Proof.
  intros Ha Ho. unfold Exact.step. cbn [fst snd].
  assert (Ha' : Forall (eq 0) (map (fun s => s / u) (slice_to (i + 1) (fst st)))).
  { apply Forall_map. eapply Forall_impl; [|apply Forall_slice_to; exact Ha].
    intros s <-. unfold Rdiv. ring. }
  split; [exact Ha'|].
  apply zip_with_Rmax_constant.
  - now apply continuation_constant.
  - unfold Exact.payoff. apply Forall_map.
    eapply Forall_impl; [|exact Ha']. now intros s <-.
Qed.

Lemma exact_fold_zero_spot (K u p dc c : R) (ot : string) :
  Rmax (c * dc) (Exact.payoff1 ot K 0) = c ->
  forall (l : list Z) st,
    Forall (eq 0) (fst st) -> Forall (eq c) (snd st) ->
    Forall (eq c) (snd (fold_left (Exact.step K u p dc ot) l st)).
Proof.
  intros Hc. induction l as [|i l IH]; intros st Ha Ho; cbn [fold_left].
  - exact Ho.
  - destruct (exact_step_zero_spot K u p dc c ot st i Ha Ho) as [Ha' Ho'].
    rewrite Hc in Ho'. now apply IH.
Qed.

Lemma terminal_zero_spot (u d : R) (N : Z) : Forall (eq 0) (Exact.terminal 0 u d N).
Proof.
  unfold Exact.terminal. apply Forall_map, Forall_forall. intros j _. ring.
Qed.

Lemma american_zero_spot (K T r sigma q c : R) (N : Z) (ot : string) :
  0 < T -> (1 <= N)%Z -> 0 < sigma ->
  Exact.payoff1 ot K 0 = c ->
  Rmax (c * Exact.disc r (T / IZR N)) c = c ->
  american_option_binomial (Fin 0) (Fin K) (Fin T) (Fin r) (Fin sigma) (Fin q) N ot
  = Ok (Fin c).
Proof.
  intros HT HN Hs Hpay Hc.
  destruct (american_fin 0 K T r sigma q N ot HT HN Hs) as (a & v & E & Hv).
  rewrite Hv. do 2 f_equal.
  unfold Exact.american in E. cbv zeta in E.
  set (u := Exact.up sigma (T / IZR N)) in *.
  set (d := Exact.down u) in *.
  pose proof (exact_fold_zero_spot K u (Exact.prob r q (T / IZR N) u d)
                (Exact.disc r (T / IZR N)) c ot
                ltac:(rewrite Hpay; exact Hc)
                (py_range_down (N - 1)) (Exact.initial 0 K u d N ot)) as H.
  rewrite E in H. cbn [snd] in H.
  assert (Hv' : Forall (eq c) [v]).
  { apply H; unfold Exact.initial; cbn [fst snd].
    - apply terminal_zero_spot.
    - unfold Exact.payoff. apply Forall_map.
      eapply Forall_impl; [|apply terminal_zero_spot]. intros s <-. now symmetry. }
  now inversion Hv'.
Qed.

End ZeroSpot.

(** X13. A spot of 0 is priced, not refused: in exact arithmetic, with a
    strike and a rate that are not negative, the call is worth 0 and the
    put is worth the strike, whatever the risk-neutral probability. *)
Theorem zero_spot_call_is_zero_put_is_strike
        (K T r sigma q : R) (N : Z) :
  (0 <= K)%R -> (0 < T)%R -> (1 <= N)%Z -> (0 < sigma)%R -> (0 <= r)%R ->
  american_option_binomial (Fin 0) (Fin K) (Fin T) (Fin r) (Fin sigma) (Fin q)
                           N "call" = Ok (Fin 0)
  /\ american_option_binomial (Fin 0) (Fin K) (Fin T) (Fin r) (Fin sigma) (Fin q)
                              N "put" = Ok (Fin K).
Proof.
  intros HK HT HN Hs Hr. split.
  - apply american_zero_spot; try assumption.
    + change (Rmax (0 - K) 0 = 0)%R. apply Rmax_right. lra.
    + rewrite Rmult_0_l. apply Rmax_left. lra.
  - apply american_zero_spot; try assumption.
    + change (Rmax (K - 0) 0 = K)%R. rewrite Rmax_left by lra. lra.
    + apply Rmax_right.
      pose proof (dt_pos T N HT HN) as Hdt.
      assert (Hdc : (Exact.disc r (T / IZR N) <= 1)%R).
      { unfold Exact.disc. apply exp_neg_le_1. nra. }
      nra.
Qed.

Lemma zero_spot_call_is_zero_put_is_strike_witness :
  (0 <= 100)%R /\ (0 < 1)%R /\ (1 <= 50)%Z /\ (0 < 2 / 10)%R /\ (0 <= 5 / 100)%R
  /\ american_option_binomial (Fin 0) (Fin 100) (Fin 1) (Fin (5 / 100))
                              (Fin (2 / 10)) (Fin 0) 50 "call" = Ok (Fin 0)
  /\ american_option_binomial (Fin 0) (Fin 100) (Fin 1) (Fin (5 / 100))
                              (Fin (2 / 10)) (Fin 0) 50 "put" = Ok (Fin 100).
Proof.
  assert (H1 : (0 <= 100)%R) by lra.
  assert (H2 : (0 < 1)%R) by lra.
  assert (H3 : (1 <= 50)%Z) by lia.
  assert (H4 : (0 < 2 / 10)%R) by lra.
  assert (H5 : (0 <= 5 / 100)%R) by lra.
  repeat (split; [assumption|]).
  exact (zero_spot_call_is_zero_put_is_strike
           100 1 (5 / 100) (2 / 10) 0 50 H1 H2 H3 H4 H5).
Defined.

Section NoEarlyExercise.

Local Open Scope R_scope.

Lemma continuation_shift (p dc c : R) (l : list R) :
  Exact.continuation p dc (map (fun x => x - c) l)
  = map (fun x => x - c * dc) (Exact.continuation p dc l).
Proof.
  induction l as [|x l IH]; [reflexivity|].
  destruct l as [|y l]; [reflexivity|].
  cbn [map] in *. rewrite !exact_continuation_cons. cbn [map].
  rewrite IH. f_equal. ring.
Qed.

Lemma continuation_nonneg (p dc : R) :
  0 <= p <= 1 -> 0 <= dc ->
  forall l, Forall (Rle 0) l -> Forall (Rle 0) (Exact.continuation p dc l).
Proof.
  intros Hp Hdc l Hl. induction Hl as [|x l Hx Hl IH].
  - constructor.
  - destruct Hl as [|y l Hy Hl].
    + constructor.
    + rewrite exact_continuation_cons. constructor; [|exact IH].
      apply Rmult_le_pos; [|assumption]. nra.
Qed.

(** The asset prices of a step stay below the lattice of that step. *)
Lemma asset_prices_step_below_lattice (S u d : R) (m : nat) (ap : list R) :
  0 <= S -> 0 < d -> d <= u ->
  Forall2 Rle ap (Exact.terminal S u d (Z.of_nat m + 1)) ->
  Forall2 Rle (map (fun s => s / u) (slice_to (Z.of_nat m + 1) ap))
              (Exact.terminal S u d (Z.of_nat m)).
Proof.
  intros HS Hd Hdu Ha.
  assert (Hu : 0 < u) by lra.
  pose proof (terminal_nonneg S u d (Z.of_nat m) HS Hu Hd) as Hpos.
  apply Forall2_Rle_trans
    with (map (fun x => x * (d / u)) (Exact.terminal S u d (Z.of_nat m))).
  - pose proof (Forall2_slice_to Rle (Z.of_nat m + 1) _ _ Ha) as H1.
    unfold slice_to at 2 in H1.
    destruct (Z.ltb_spec (Z.of_nat m + 1) 0); [lia|].
    replace (Z.to_nat (Z.of_nat m + 1)) with (Datatypes.S m) in H1 by lia.
    rewrite terminal_init in H1.
    apply (Forall2_map Rle Rle (fun s => s / u) (fun s => s / u)) in H1.
    + rewrite map_map in H1.
      erewrite (map_ext (fun x => x * d / u)) in H1; [exact H1|].
      intros x. cbv beta. unfold Rdiv. ring.
    + intros a b Hab. now apply div_le_compat.
  - apply Forall2_Rle_shrink; [|exact Hpos]. split.
    + apply Rmult_le_pos; [lra|]. left. now apply Rinv_0_lt_compat.
    + apply Rmult_le_reg_r with u; [assumption|].
      unfold Rdiv. rewrite Rmult_assoc, Rinv_l by lra. lra.
Qed.

(** When every exercise value is below the continuation value, the
    comparison keeps the continuation value. *)
Lemma zip_with_Rmax_left (c : list R) : forall e,
  Forall2 Rle e c -> zip_with Rmax c e = c.
Proof.
  induction c as [|x c IH]; intros e He; inversion He; subst; cbn.
  - reflexivity.
  - rewrite IH by assumption. f_equal. now apply Rmax_left.
Qed.

(** Under the conditions below a call value is at least
    [lattice price - K * discount^k], [k] steps before maturity. *)
Lemma call_step_keeps_continuation (S K u d p dc c : R) (m : nat)
      (st : list R * list R) :
  0 <= S -> 0 <= K -> 0 < d -> d <= u -> 0 <= p <= 1 -> 0 <= dc <= 1 ->
  1 <= (p * u + (1 - p) * d) * dc ->
  0 <= c <= K ->
  Forall2 Rle (fst st) (Exact.terminal S u d (Z.of_nat m + 1)) ->
  Forall2 Rle (map (fun x => x - c) (Exact.terminal S u d (Z.of_nat m + 1))) (snd st) ->
  Forall (Rle 0) (snd st) ->
  Exact.step K u p dc "call" st (Z.of_nat m)
  = Exact.step_no_exercise u p dc st (Z.of_nat m)
  /\ Forall2 Rle (fst (Exact.step K u p dc "call" st (Z.of_nat m)))
                 (Exact.terminal S u d (Z.of_nat m))
  /\ Forall2 Rle (map (fun x => x - c * dc) (Exact.terminal S u d (Z.of_nat m)))
                 (snd (Exact.step K u p dc "call" st (Z.of_nat m)))
  /\ Forall (Rle 0) (snd (Exact.step K u p dc "call" st (Z.of_nat m))).
Proof.
  intros HS HK Hd Hdu Hp Hdc Hg Hc Ha Hlow Hnn.
  assert (Hu : 0 < u) by lra.
  pose proof (terminal_nonneg S u d (Z.of_nat m) HS Hu Hd) as Hpos.
  pose proof (asset_prices_step_below_lattice S u d m (fst st) HS Hd Hdu Ha) as Ha'.
  assert (Hcont : Forall2 Rle
                    (map (fun x => x - c * dc) (Exact.terminal S u d (Z.of_nat m)))
                    (Exact.continuation p dc (snd st))).
  { apply Forall2_Rle_trans
      with (Exact.continuation p dc
              (map (fun x => x - c) (Exact.terminal S u d (Z.of_nat m + 1)))).
    - rewrite continuation_shift, continuation_terminal. rewrite map_map.
      clear -Hpos Hg Hc Hdc. induction Hpos as [|x l Hx Hl IH]; cbn; constructor.
      + nra.
      + exact IH.
    - apply exact_continuation_mono; [assumption | lra | assumption]. }
  assert (Hcnn : Forall (Rle 0) (Exact.continuation p dc (snd st))).
  { apply continuation_nonneg; [assumption | lra | assumption]. }
  assert (Hex : Forall2 Rle
                  (Exact.payoff "call" K
                     (map (fun s => s / u) (slice_to (Z.of_nat m + 1) (fst st))))
                  (Exact.continuation p dc (snd st))).
  { unfold Exact.payoff.
    set (ap' := map (fun s => s / u) (slice_to (Z.of_nat m + 1) (fst st))) in *.
    set (t := Exact.terminal S u d (Z.of_nat m)) in *.
    set (cv := Exact.continuation p dc (snd st)) in *.
    clearbody ap' t cv. clear -Ha' Hcont Hcnn Hc Hdc HK.
    revert cv Hcont Hcnn. induction Ha' as [|a x ap' t Hax Ha' IH]; intros cv Hcont Hcnn.
    - inversion Hcont; subst. constructor.
    - inversion Hcont; subst. inversion Hcnn; subst. cbn [map]. constructor.
      + change (Rmax (a - K) 0 <= y). apply Rmax_lub; [|assumption]. nra.
      + now apply IH. }
  unfold Exact.step, Exact.step_no_exercise. cbn [fst snd].
  rewrite (zip_with_Rmax_left _ _ Hex).
  split; [reflexivity|]. split; [exact Ha'|]. split; assumption.
Qed.

Lemma call_fold_keeps_continuation (S K u d p dc : R) :
  0 <= S -> 0 <= K -> 0 < d -> d <= u -> 0 <= p <= 1 -> 0 <= dc <= 1 ->
  1 <= (p * u + (1 - p) * d) * dc ->
  forall (m : nat) (c : R) (st : list R * list R),
    0 <= c <= K ->
    Forall2 Rle (fst st) (Exact.terminal S u d (Z.of_nat m)) ->
    Forall2 Rle (map (fun x => x - c) (Exact.terminal S u d (Z.of_nat m))) (snd st) ->
    Forall (Rle 0) (snd st) ->
    fold_left (Exact.step K u p dc "call") (py_range_down (Z.of_nat m - 1)) st
    = fold_left (Exact.step_no_exercise u p dc) (py_range_down (Z.of_nat m - 1)) st.
Proof.
  intros HS HK Hd Hdu Hp Hdc Hg.
  induction m as [|m IH]; intros c st Hc Ha Hlow Hnn.
  - rewrite py_range_down_neg by lia. reflexivity.
  - replace (Z.of_nat (Datatypes.S m) - 1)%Z with (Z.of_nat m) by lia.
    rewrite py_range_down_S. cbn [fold_left].
    replace (Z.of_nat (Datatypes.S m)) with (Z.of_nat m + 1)%Z in Ha, Hlow by lia.
    destruct (call_step_keeps_continuation S K u d p dc c m st
                HS HK Hd Hdu Hp Hdc Hg Hc Ha Hlow Hnn) as (E & Ha' & Hlow' & Hnn').
    rewrite <- E. apply (IH (c * dc)); try assumption. nra.
Qed.

Lemma growth_at_least_1 (r q dt u d : R) :
  u - d <> 0 -> q <= 0 -> 0 <= dt ->
  1 <= (Exact.prob r q dt u d * u + (1 - Exact.prob r q dt u d) * d) * Exact.disc r dt.
Proof.
  intros Hud Hq Hdt. rewrite prob_weights by assumption.
  unfold Exact.disc. rewrite <- exp_plus, <- exp_0. apply exp_le_compat. nra.
Qed.

Lemma call_initial_lower_bound (S K u d : R) (N : Z) :
  Forall2 Rle (map (fun x => x - K) (Exact.terminal S u d N))
              (snd (Exact.initial S K u d N "call")).
Proof.
  unfold Exact.initial, Exact.payoff. cbn [snd].
  induction (Exact.terminal S u d N) as [|x l IH]; cbn; constructor.
  - change (x - K <= Rmax (x - K) 0). apply Rmax_l.
  - exact IH.
Qed.

End NoEarlyExercise.

(** X14. A call on a spot and a strike that are not negative, with a rate
    that is not negative, a dividend yield that is not positive and a
    risk-neutral probability in [[0, 1]], is never exercised early: at
    no node does the comparison with the exercise value change the
    continuation value, and the price is that of the same backward
    induction without the comparison. *)
Theorem call_without_dividends_is_never_exercised_early
        (S K T r sigma q p : R) (N : Z) :
  (0 <= S)%R -> (0 <= K)%R -> (0 < T)%R -> (1 <= N)%Z -> (0 < sigma)%R ->
  (0 <= r)%R -> (q <= 0)%R ->
  risk_neutral_probability (Fin T) (Fin r) (Fin sigma) (Fin q) N = Ok (Fin p) ->
  (0 <= p <= 1)%R ->
  exists v : R,
    american_option_binomial (Fin S) (Fin K) (Fin T) (Fin r) (Fin sigma) (Fin q)
                             N "call" = Ok (Fin v)
    /\ european_option_binomial (Fin S) (Fin K) (Fin T) (Fin r) (Fin sigma) (Fin q)
                                N "call" = Ok (Fin v).
Proof.
  intros HS HK HT HN Hs Hr Hq Hprob Hp.
  rewrite risk_neutral_probability_fin in Hprob by assumption.
  injection Hprob as Hprob.
  destruct (american_fin S K T r sigma q N "call" HT HN Hs) as (a & v & Ea & Hv).
  destruct (european_fin S K T r sigma q N "call" HT HN Hs) as (a' & v' & Ee & Hv').
  exists v. split; [exact Hv|].
  pose proof (dt_pos T N HT HN) as Hdt.
  pose proof (up_gt_1 sigma (T / IZR N) Hs Hdt) as Hu.
  pose proof (down_lt_1 _ Hu) as Hd.
  unfold Exact.american in Ea. unfold Exact.european in Ee. cbv zeta in Ea, Ee.
  pose proof (growth_at_least_1 r q (T / IZR N) (Exact.up sigma (T / IZR N))
                (Exact.down (Exact.up sigma (T / IZR N)))
                ltac:(lra) Hq ltac:(lra)) as Hg.
  rewrite Hprob in Ea, Ee, Hg.
  set (u := Exact.up sigma (T / IZR N)) in *.
  set (d := Exact.down u) in *.
  assert (Hdc : (0 <= Exact.disc r (T / IZR N) <= 1)%R).
  { unfold Exact.disc. split; [left; apply exp_pos|]. apply exp_neg_le_1. nra. }
  set (dc := Exact.disc r (T / IZR N)) in *.
  pose proof (call_fold_keeps_continuation S K u d p dc HS HK
                ltac:(lra) ltac:(lra) Hp Hdc Hg (Z.to_nat N) K
                (Exact.initial S K u d N "call") ltac:(lra)) as E.
  replace (Z.of_nat (Z.to_nat N)) with N in E by lia.
  rewrite Ea, Ee in E.
  assert (E' : ([a], [v]) = ([a'], [v'])).
  { apply E.
    - unfold Exact.initial. cbn [fst]. apply Forall2_Rle_refl.
    - apply call_initial_lower_bound.
    - apply exact_initial_nonneg. }
  injection E' as _ ->. exact Hv'.
Qed.

Lemma call_without_dividends_is_never_exercised_early_witness :
  (0 <= 100)%R /\ (0 <= 100)%R /\ (0 < 4)%R /\ (1 <= 4)%Z /\ (0 < 2 / 10)%R
  /\ (0 <= 5 / 100)%R /\ (0 <= 0)%R
  /\ risk_neutral_probability (Fin 4) (Fin (5 / 100)) (Fin (2 / 10)) (Fin 0) 4
     = Ok (Fin (Exact.prob (5 / 100) 0 (4 / 4) (Exact.up (2 / 10) (4 / 4))
                           (Exact.down (Exact.up (2 / 10) (4 / 4)))))
  /\ (0 <= Exact.prob (5 / 100) 0 (4 / 4) (Exact.up (2 / 10) (4 / 4))
                      (Exact.down (Exact.up (2 / 10) (4 / 4))) <= 1)%R
  /\ exists v : R,
      american_option_binomial (Fin 100) (Fin 100) (Fin 4) (Fin (5 / 100))
                               (Fin (2 / 10)) (Fin 0) 4 "call" = Ok (Fin v)
      /\ european_option_binomial (Fin 100) (Fin 100) (Fin 4) (Fin (5 / 100))
                                  (Fin (2 / 10)) (Fin 0) 4 "call" = Ok (Fin v).
Proof.
  assert (H1 : (0 <= 100)%R) by lra.
  assert (H2 : (0 < 4)%R) by lra.
  assert (H3 : (1 <= 4)%Z) by lia.
  assert (H4 : (0 < 2 / 10)%R) by lra.
  assert (H5 : (0 <= 5 / 100)%R) by lra.
  assert (H6 : (0 <= 0)%R) by lra.
  destruct four_year_probability as [H7 H8].
  repeat (split; [assumption|]).
  exact (call_without_dividends_is_never_exercised_early
           100 100 4 (5 / 100) (2 / 10) 0 _ 4 H1 H1 H2 H3 H4 H5 H6 H7 H8).
Defined.
